(** * Callsite merging for the heap-profile flamegraph track

    A shallow embedding of
    [ui/src/tracks/heap_profile_flamegraph/controller.ts]
    ([mergeCallsites], [copyCallsite], [getCallsitesParentHash] and the
    selection check of [HeapProfileFlameraphTrackController.run]) together
    with the properties its specification states about it.

    Numbers: the fields of a callsite are read from [longValues] columns, so
    [hash], [parentHash], [depth] and [totalSize] are integers ([Z]).  The
    threshold is compared with integers only, so it is an integer as well (a
    fractional threshold compares like its floor); a threshold that is not a
    number compares false with every size and has no counterpart here.
    JavaScript adds in double precision, which is exact on integers as long
    as the magnitude of the sum does not exceed 2^53: the properties that
    depend on the value of a sum assume [exactSums].  The redirect map
    [Map<number, number>] is a [gmap Z Z]. *)

From stdpp Require Import gmap strings list fin_maps sorting.
From Stdlib Require Import ZArith Lia Ascii DecimalString DecimalZ.

Local Open Scope Z_scope.
#[local] Set Warnings "-clear-no-such-hyp".

(** ** Data model *)

(** [CallsiteInfo] of [frontend/globals], with the five fields the
    controller reads and writes. *)
Record CallsiteInfo := mkCallsite {
  hash : Z;
  parentHash : Z;
  depth : Z;
  name : string;
  totalSize : Z
}.

#[global] Instance CallsiteInfo_eq_dec : EqDecision CallsiteInfo.
Proof. solve_decision. Defined.

(** Results of running a piece of the program.  [TypeError] is what
    JavaScript throws when a property of [undefined] is read; [OutOfFuel] is
    the bounded model of the [while] loop giving up; [BadStore] is a
    reference that does not point to an object of the expected kind (only
    the store model below can produce it). *)
Inductive error := TypeError | OutOfFuel | BadStore.

Inductive outcome (A : Type) :=
  | Done (a : A)
  | Fail (e : error).
Arguments Done {A} a.
Arguments Fail {A} e.

#[global] Instance outcome_ret : MRet outcome := λ A a, Done a.

#[global] Instance outcome_bind : MBind outcome := λ A B f x,
  match x with
  | Done a => f a
  | Fail e => Fail e
  end.

(** ** The merge, on values *)

Definition copyCallsite (callsite : CallsiteInfo) : CallsiteInfo :=
  {| hash := hash callsite;
     parentHash := parentHash callsite;
     depth := depth callsite;
     name := name callsite;
     totalSize := totalSize callsite |}.

Definition getCallsitesParentHash
    (callsite : CallsiteInfo) (map : gmap Z Z) : Z :=
  match map !! parentHash callsite with
  | Some h => h
  | None => parentHash callsite
  end.

Definition setParentHash (c : CallsiteInfo) (p : Z) : CallsiteInfo :=
  {| hash := hash c; parentHash := p; depth := depth c;
     name := name c; totalSize := totalSize c |}.

(** [c.totalSize += s], exact for sums of magnitude up to 2^53. *)
Definition addTotalSize (c : CallsiteInfo) (s : Z) : CallsiteInfo :=
  {| hash := hash c; parentHash := parentHash c; depth := depth c;
     name := name c; totalSize := totalSize c + s |}.

(** The test of the inner [if]: same effective parent and small. *)
Definition mergeable (minSizeDisplayed : Z) (copiedCallsite : CallsiteInfo)
    (mergedCallsites : gmap Z Z) (nextCallsite : CallsiteInfo) : bool :=
  (parentHash copiedCallsite =?
     getCallsitesParentHash nextCallsite mergedCallsites)
  && (totalSize nextCallsite <=? minSizeDisplayed).

(** One pass through the body of the [while] loop, without [j++]. *)
Definition whileBody (minSizeDisplayed : Z) (copiedCallsite : CallsiteInfo)
    (mergedCallsites : gmap Z Z) (nextCallsite : CallsiteInfo)
  : CallsiteInfo * gmap Z Z :=
  if mergeable minSizeDisplayed copiedCallsite mergedCallsites nextCallsite
  then (addTotalSize copiedCallsite (totalSize nextCallsite),
        <[hash nextCallsite := hash copiedCallsite]> mergedCallsites)
  else (copiedCallsite, mergedCallsites).

(** The [while] loop.  [nextCallsite] is the variable of that name: it holds
    [data[j]], which is [undefined] ([None]) once [j] is [data.length].  The
    guard reads [j < data.length] first and [nextCallsite.depth] only when
    that holds. *)
Fixpoint whileLoop (fuel : nat) (data : list CallsiteInfo)
    (minSizeDisplayed : Z) (j : nat) (nextCallsite : option CallsiteInfo)
    (copiedCallsite : CallsiteInfo) (mergedCallsites : gmap Z Z)
  : outcome (CallsiteInfo * gmap Z Z) :=
  match fuel with
  | O => Fail OutOfFuel
  | S fuel' =>
    if negb (j <? length data)%nat then Done (copiedCallsite, mergedCallsites)
    else
      match nextCallsite with
      | None => Fail TypeError
      | Some next =>
        if negb (depth copiedCallsite =? depth next)
        then Done (copiedCallsite, mergedCallsites)
        else
          let '(c, m) :=
            whileBody minSizeDisplayed copiedCallsite mergedCallsites next in
          whileLoop fuel' data minSizeDisplayed (S j) (data !! S j) c m
      end
  end.

(** State of the outer loop: the two local constants of [mergeCallsites]. *)
Record mergeState := mkState {
  mergedData : list CallsiteInfo;
  mergedCallsites : gmap Z Z
}.

(** Body of the [for] loop at index [i]. *)
Definition forBody (data : list CallsiteInfo) (minSizeDisplayed : Z)
    (i : nat) (st : mergeState) : outcome mergeState :=
  match data !! i with
  | None => Fail TypeError
  | Some di =>
    if bool_decide (is_Some (mergedCallsites st !! hash di)) then Done st
    else
      let copiedCallsite := copyCallsite di in
      let copiedCallsite :=
        setParentHash copiedCallsite
          (getCallsitesParentHash copiedCallsite (mergedCallsites st)) in
      '(c, m) ←
        (if (totalSize copiedCallsite <=? minSizeDisplayed)
            && (i + 1 <? length data)%nat
         then whileLoop (length data) data minSizeDisplayed
                (i + 1) (data !! (i + 1)%nat) copiedCallsite
                (mergedCallsites st)
         else Done (copiedCallsite, mergedCallsites st));
      Done (mkState (mergedData st ++ [c]) m)
  end.

(** A counted [for] loop whose body does not assign its index. *)
Fixpoint forLoop {S : Type} (body : nat → S → outcome S)
    (indices : list nat) (st : S) : outcome S :=
  match indices with
  | [] => Done st
  | i :: rest => st' ← body i st; forLoop body rest st'
  end.

(** The loop state when index [n] is reached: the iterations
    [0, ..., n-1] have run. *)
Definition mergeUpTo (data : list CallsiteInfo) (minSizeDisplayed : Z)
    (n : nat) : outcome mergeState :=
  forLoop (forBody data minSizeDisplayed) (seq 0 n) (mkState [] ∅).

Definition mergeRun (data : list CallsiteInfo) (minSizeDisplayed : Z)
  : outcome mergeState :=
  mergeUpTo data minSizeDisplayed (length data).

Definition mergeCallsites (data : list CallsiteInfo) (minSizeDisplayed : Z)
  : outcome (list CallsiteInfo) :=
  st ← mergeRun data minSizeDisplayed; Done (mergedData st).

(** ** The merge, on a store of objects

    The same function with JavaScript's references: a store maps locations
    to objects, an array holds locations, [copyCallsite] allocates, and the
    assignments to [copiedCallsite.parentHash] and
    [copiedCallsite.totalSize] write to the store.  The store holds the
    arrays and the callsite objects; the redirect map, which is local to the
    call and never handed out, stays a value. *)
Inductive object :=
  | Callsite (c : CallsiteInfo)
  | Array (elems : list nat).

Definition heapM (A : Type) : Type := list object → outcome (A * list object).

#[global] Instance heapM_ret : MRet heapM := λ A a σ, Done (a, σ).

#[global] Instance heapM_bind : MBind heapM := λ A B f x σ,
  match x σ with
  | Done (a, σ') => f a σ'
  | Fail e => Fail e
  end.

Definition throw {A} (e : error) : heapM A := λ _, Fail e.

(** [l.f] for a callsite object at [l]. *)
Definition readField {A} (l : nat) (f : CallsiteInfo → A) : heapM A := λ σ,
  match σ !! l with
  | Some (Callsite c) => Done (f c, σ)
  | _ => Fail BadStore
  end.

(** [l.parentHash = v] and [l.totalSize = v]. *)
Definition writeField (l : nat) (upd : CallsiteInfo → CallsiteInfo)
  : heapM unit := λ σ,
  match σ !! l with
  | Some (Callsite c) => Done ((), <[l := Callsite (upd c)]> σ)
  | _ => Fail BadStore
  end.

Definition writeParentHash (l : nat) (v : Z) : heapM unit :=
  writeField l (λ c, setParentHash c v).

Definition writeTotalSize (l : nat) (v : Z) : heapM unit :=
  writeField l (λ c, mkCallsite (hash c) (parentHash c) (depth c) (name c) v).

(** An object or array literal. *)
Definition allocObject (o : object) : heapM nat := λ σ,
  Done (length σ, σ ++ [o]).

(** [a.length], [a[i]] ([None] is [undefined]) and [a.push(l)]. *)
Definition arrayLength (a : nat) : heapM nat := λ σ,
  match σ !! a with
  | Some (Array elems) => Done (length elems, σ)
  | _ => Fail BadStore
  end.

Definition arrayGet (a : nat) (i : nat) : heapM (option nat) := λ σ,
  match σ !! a with
  | Some (Array elems) => Done (elems !! i, σ)
  | _ => Fail BadStore
  end.

Definition arrayPush (a : nat) (l : nat) : heapM unit := λ σ,
  match σ !! a with
  | Some (Array elems) => Done ((), <[a := Array (elems ++ [l])]> σ)
  | _ => Fail BadStore
  end.

Definition copyCallsiteRef (callsite : nat) : heapM nat :=
  h ← readField callsite hash;
  p ← readField callsite parentHash;
  d ← readField callsite depth;
  n ← readField callsite name;
  s ← readField callsite totalSize;
  allocObject (Callsite (mkCallsite h p d n s)).

Definition getCallsitesParentHashRef (callsite : nat) (map : gmap Z Z)
  : heapM Z :=
  p ← readField callsite parentHash;
  mret (match map !! p with Some h => h | None => p end).

Fixpoint whileLoopRef (fuel : nat) (data : nat) (minSizeDisplayed : Z)
    (j : nat) (nextCallsite : option nat) (copiedCallsite : nat)
    (mergedCallsites : gmap Z Z) : heapM (gmap Z Z) :=
  match fuel with
  | O => throw OutOfFuel
  | S fuel' =>
    len ← arrayLength data;
    if negb (j <? len)%nat then mret mergedCallsites
    else
      match nextCallsite with
      | None => throw TypeError
      | Some next =>
        cd ← readField copiedCallsite depth;
        nd ← readField next depth;
        if negb (cd =? nd) then mret mergedCallsites
        else
          cp ← readField copiedCallsite parentHash;
          np ← getCallsitesParentHashRef next mergedCallsites;
          ns ← readField next totalSize;
          m ← (if (cp =? np) && (ns <=? minSizeDisplayed)
               then
                 cs ← readField copiedCallsite totalSize;
                 _ ← writeTotalSize copiedCallsite (cs + ns);
                 nh ← readField next hash;
                 ch ← readField copiedCallsite hash;
                 mret (<[nh := ch]> mergedCallsites)
               else mret mergedCallsites);
          next' ← arrayGet data (S j);
          whileLoopRef fuel' data minSizeDisplayed (S j) next'
            copiedCallsite m
      end
  end.

Definition forBodyRef (data : nat) (minSizeDisplayed : Z) (mergedData : nat)
    (i : nat) (mergedCallsites : gmap Z Z) : heapM (gmap Z Z) :=
  di ← arrayGet data i;
  match di with
  | None => throw TypeError
  | Some di =>
    h ← readField di hash;
    if bool_decide (is_Some (mergedCallsites !! h)) then mret mergedCallsites
    else
      copiedCallsite ← copyCallsiteRef di;
      p ← getCallsitesParentHashRef copiedCallsite mergedCallsites;
      _ ← writeParentHash copiedCallsite p;
      s ← readField copiedCallsite totalSize;
      len ← arrayLength data;
      m ← (if (s <=? minSizeDisplayed) && (i + 1 <? len)%nat
           then
             next ← arrayGet data (i + 1);
             whileLoopRef len data minSizeDisplayed (i + 1) next
               copiedCallsite mergedCallsites
           else mret mergedCallsites);
      _ ← arrayPush mergedData copiedCallsite;
      mret m
  end.

(** The [for] loop, which reads [data.length] before every iteration. *)
Fixpoint forLoopRef (fuel : nat) (data : nat) (minSizeDisplayed : Z)
    (mergedData : nat) (i : nat) (mergedCallsites : gmap Z Z)
  : heapM (gmap Z Z) :=
  match fuel with
  | O => throw OutOfFuel
  | S fuel' =>
    len ← arrayLength data;
    if negb (i <? len)%nat then mret mergedCallsites
    else
      m ← forBodyRef data minSizeDisplayed mergedData i mergedCallsites;
      forLoopRef fuel' data minSizeDisplayed mergedData (S i) m
  end.

Definition mergeCallsitesRef (data : nat) (minSizeDisplayed : Z)
  : heapM nat :=
  mergedData ← allocObject (Array []);
  len ← arrayLength data;
  _ ← forLoopRef (S len) data minSizeDisplayed mergedData 0 ∅;
  mret mergedData.

(** The objects of a kind in a store. *)
Definition isCallsite (o : object) : bool :=
  match o with Callsite _ => true | Array _ => false end.

Definition isArray (o : object) : bool :=
  match o with Array _ => true | Callsite _ => false end.

Fixpoint countObjects (p : object → bool) (σ : list object) : nat :=
  match σ with
  | [] => 0
  | o :: σ' => ((if p o then 1 else 0) + countObjects p σ')%nat
  end.

(** The records an array of the store holds. *)
Definition holds (σ : list object) (locs : list nat)
    (recs : list CallsiteInfo) : Prop :=
  Forall2 (λ l r, σ !! l = Some (Callsite r)) locs recs.

(** The store while the outer loop runs: the old store, the output array
    and the nodes emitted so far. *)
Definition storeAfter (σ0 : list object) (acc : list CallsiteInfo)
  : list object :=
  σ0 ++ Array (seq (S (length σ0)) (length acc)) :: (Callsite <$> acc).

(** ** The track controller's selection check

    [globals] is not part of this file's source: what the controller reads
    of it is a reference to a selection object, held in
    [globals.state.currentHeapProfileFlamegraph], and the fields of the
    object it points to.  How the application changes them between the
    request and its completion is left open: [Globals] is the state found at
    either moment. *)
Record Selection := mkSelection {
  kind : string;
  id : Z;
  upid : Z;
  ts : Z
}.

Record Globals := mkGlobals {
  selections : list Selection;
  currentHeapProfileFlamegraph : option nat
}.

(** The fields of the controller ([end] and [length] are taken in Rocq). *)
Record Controller := mkController {
  start : Z;
  end_ : Z;
  resolution : Z;
  length_ : Z;
  lastSelectedTs : option Z;
  lastSelectedId : option Z
}.

(** [Data] of [./common]. *)
Record Data := mkData {
  dataStart : Z;
  dataEnd : Z;
  dataResolution : Z;
  dataLength : Z;
  flamegraph : list CallsiteInfo
}.

(** What the callback passed to [then] closes over. *)
Record Pending := mkPending {
  selection : nat;
  selectedId : Z;
  selectedUpid : Z;
  selectedKind : string;
  selectedTs : Z
}.

Inductive effect :=
  | Publish (d : Data)
  | GetFlamegraphData (p : Pending).

Definition generateEmptyData (c : Controller) : Data :=
  mkData (-1) (-1) (resolution c) 0 [].

(** The code of [run] that follows [super.run()]: the new controller
    fields, the data published at once and the request started. *)
Definition run (g : Globals) (c : Controller)
  : Controller * list effect :=
  match currentHeapProfileFlamegraph g with
  | None => (c, [])
  | Some selection =>
    match selections g !! selection with
    | None => (c, [])  (* a reference always points to an object *)
    | Some sel =>
      if negb (String.eqb (kind sel) "HEAP_PROFILE_FLAMEGRAPH") then (c, [])
      else if bool_decide (lastSelectedId c = Some (id sel)
                           ∧ lastSelectedTs c = Some (ts sel))
      then (c, [])
      else
        (mkController (start c) (end_ c) (resolution c) (length_ c)
           (Some (ts sel)) (Some (id sel)),
         [ Publish (generateEmptyData c);
           GetFlamegraphData
             (mkPending selection (id sel) (upid sel) (kind sel) (ts sel)) ])
    end
  end.

(** [run] as a whole: the call [super.run()], then the code above.  The
    base class [TrackController] is not part of this file's source, so what
    its [run] does to the controller, and what it publishes or requests
    (effects of some type [E]), is a parameter. *)
Definition runMethod {E}
    (superRun : Globals → Controller → Controller * list E)
    (g : Globals) (c : Controller) : Controller * (list E * list effect) :=
  let '(c1, e1) := superRun g c in
  let '(c2, e2) := run g c1 in
  (c2, (e1, e2)).

(** The callback of [then], run when the request completes with
    [flamegraphData], on the globals and the controller as they are then.
    [selection] is the reference captured by [run]. *)
Definition onFlamegraphData (getMinSizeDisplayed : list CallsiteInfo → Z)
    (g : Globals) (c : Controller) (p : Pending)
    (flamegraphData : option (list CallsiteInfo)) : option Data :=
  match flamegraphData, selections g !! selection p with
  | Some fd, Some sel =>
    if String.eqb (kind sel) (selectedKind p)
       && (id sel =? selectedId p) && (ts sel =? selectedTs p)
    then
      match mergeCallsites fd (getMinSizeDisplayed fd) with
      | Done merged =>
          Some (mkData (start c) (end_ c) (resolution c) (length_ c) merged)
      | Fail _ => None
      end
    else None
  | _, _ => None
  end.

(** The selection that is active in [g]. *)
Definition activeSelection (g : Globals) : option Selection :=
  l ← currentHeapProfileFlamegraph g; selections g !! l.

(** ** The same computation by recursion on the remaining records

    [scanList] is the [while] loop over the records that follow the current
    one; [mergeList] is the [for] loop over the remaining records.  Neither
    uses an index, so neither can read past the end. *)
Fixpoint scanList (minSizeDisplayed : Z) (c : CallsiteInfo) (m : gmap Z Z)
    (rest : list CallsiteInfo) : CallsiteInfo * gmap Z Z :=
  match rest with
  | [] => (c, m)
  | next :: rest' =>
    if depth c =? depth next then
      let '(c', m') := whileBody minSizeDisplayed c m next in
      scanList minSizeDisplayed c' m' rest'
    else (c, m)
  end.

Definition emit (minSizeDisplayed : Z) (m : gmap Z Z) (d : CallsiteInfo)
    (rest : list CallsiteInfo) : CallsiteInfo * gmap Z Z :=
  let c := setParentHash (copyCallsite d)
             (getCallsitesParentHash (copyCallsite d) m) in
  if totalSize c <=? minSizeDisplayed
  then scanList minSizeDisplayed c m rest
  else (c, m).

Fixpoint mergeList (minSizeDisplayed : Z) (m : gmap Z Z)
    (l : list CallsiteInfo) : list CallsiteInfo * gmap Z Z :=
  match l with
  | [] => ([], m)
  | d :: rest =>
    if bool_decide (is_Some (m !! hash d))
    then mergeList minSizeDisplayed m rest
    else
      let '(c, m') := emit minSizeDisplayed m d rest in
      let '(out, mf) := mergeList minSizeDisplayed m' rest in
      (c :: out, mf)
  end.

(** ** Vocabulary of the properties *)

Definition sumSizes (l : list CallsiteInfo) : Z :=
  foldr (λ x acc, totalSize x + acc) 0 l.

(** The magnitudes of the sizes add up to at most 2^53: every sum of sizes
    of distinct records is then an integer that double precision holds
    exactly, and [+=] computes it without rounding. *)
Definition sumMagnitudes (l : list CallsiteInfo) : Z :=
  foldr (λ x acc, Z.abs (totalSize x) + acc) 0 l.

Definition exactSums (l : list CallsiteInfo) : Prop :=
  sumMagnitudes l ≤ 2 ^ 53.

(** Hashes identify records. *)
Definition uniqueHashes (l : list CallsiteInfo) : Prop :=
  NoDup (hash <$> l).

(** No record names a record of its own depth as its parent. *)
Definition noSameDepthParent (l : list CallsiteInfo) : Prop :=
  ∀ x y, x ∈ l → y ∈ l → depth x = depth y → parentHash x ≠ hash y.

(** A parent that is present is strictly shallower than its child. *)
Definition parentsShallower (l : list CallsiteInfo) : Prop :=
  ∀ x y, x ∈ l → y ∈ l → parentHash x = hash y → depth y < depth x.

Definition depthLe (x y : CallsiteInfo) : Prop := depth x ≤ depth y.

#[global] Instance depthLe_dec x y : Decision (depthLe x y).
Proof. unfold depthLe. apply _. Defined.

(** Records come by ascending depth. *)
Definition depthSorted (l : list CallsiteInfo) : Prop :=
  Sorted depthLe l.

(** The order the query delivers the records in:
    [order by depth, parent_hash, size desc, name]. *)
Definition queryOrderLe (x y : CallsiteInfo) : bool :=
  (depth x <? depth y)
  || ((depth x =? depth y)
      && ((parentHash x <? parentHash y)
          || ((parentHash x =? parentHash y)
              && ((totalSize y <? totalSize x)
                  || ((totalSize x =? totalSize y)
                      && String.leb (name x) (name y)))))).

Fixpoint queryOrdered (l : list CallsiteInfo) : bool :=
  match l with
  | [] => true
  | x :: rest =>
    match rest with
    | [] => true
    | y :: _ => queryOrderLe x y && queryOrdered rest
    end
  end.

(** The fields an output node shares with the record it was copied from. *)
Definition copiedFrom (o d : CallsiteInfo) : Prop :=
  hash o = hash d ∧ depth o = depth d ∧ name o = name d.

(** What holds of the loop state whenever an index is reached: redirect keys
    are hashes of input records, and redirect values are hashes of nodes
    already emitted. *)
Definition stateOk (data : list CallsiteInfo) (st : mergeState) : Prop :=
  ∀ k v, mergedCallsites st !! k = Some v →
         k ∈ hash <$> data ∧ v ∈ hash <$> mergedData st.

(** [o] is the node emitted for the record at some index [i], with the
    effective parent read from the redirect map as it is when [i] is
    reached. *)
Definition emittedAt (data : list CallsiteInfo) (ms : Z) (o : CallsiteInfo)
  : Prop :=
  ∃ i d st,
    data !! i = Some d
    ∧ mergeUpTo data ms i = Done st
    ∧ mergedCallsites st !! hash d = None
    ∧ copiedFrom o d
    ∧ parentHash o = match mergedCallsites st !! parentHash d with
                     | Some rep => rep
                     | None => parentHash d
                     end
    ∧ (∀ rep, mergedCallsites st !! parentHash d = Some rep →
              rep ∈ hash <$> mergedData st)
    ∧ (parentHash d ∉ hash <$> data → parentHash o = parentHash d).

(** Every node is above the threshold or alone in its group of depth and
    parent (in a merged sequence [parentHash] is the effective parent). *)
Definition thresholdSatisfying (ms : Z) (data : list CallsiteInfo) : Prop :=
  ∀ i x, data !! i = Some x →
    ms < totalSize x
    ∨ ∀ j y, data !! j = Some y →
             depth y = depth x → parentHash y = parentHash x → j = i.

(** Every node is above the threshold or the only node of its group of
    depth and parent that is not. *)
Definition soleSmallInGroup (ms : Z) (out : list CallsiteInfo) : Prop :=
  ∀ i o, out !! i = Some o →
    ms < totalSize o
    ∨ ∀ j o', out !! j = Some o' →
              depth o' = depth o → parentHash o' = parentHash o →
              totalSize o' ≤ ms → j = i.

(** The hash of the output node a record ends up in: the redirect target of
    its hash, or its own hash when it is not redirected. *)
Definition representative (M : gmap Z Z) (x : CallsiteInfo) : Z :=
  match M !! hash x with
  | Some h => h
  | None => hash x
  end.

(** ** Vocabulary of the proofs *)

(** The records the [while] loop started for [c] folds into it, when the
    redirect map consulted is frozen at [m]. *)
Fixpoint absorbed (minSizeDisplayed : Z) (c : CallsiteInfo) (m : gmap Z Z)
    (rest : list CallsiteInfo) : list CallsiteInfo :=
  match rest with
  | [] => []
  | next :: rest' =>
    if depth c =? depth next then
      if mergeable minSizeDisplayed c m next
      then next :: absorbed minSizeDisplayed c m rest'
      else absorbed minSizeDisplayed c m rest'
    else []
  end.

Definition redirectAll (h : Z) (A : list CallsiteInfo) (m : gmap Z Z)
  : gmap Z Z :=
  foldl (λ m x, <[hash x := h]> m) m A.

(** Sizes still to be emitted: records whose hash is not a redirect key. *)
Definition pending (m : gmap Z Z) (l : list CallsiteInfo) : Z :=
  sumSizes (filter (λ x, m !! hash x = None) l).

(** What the records of the scanned run look like. *)
Definition inRun (c : CallsiteInfo) (rest : list CallsiteInfo)
    (y : CallsiteInfo) : Prop :=
  ∃ l1 l2, rest = l1 ++ y :: l2
           ∧ Forall (λ x, depth x = depth c) (l1 ++ [y]).

(** The records folded into [d] when it is reached with redirect map [m]. *)
Definition group (ms : Z) (m : gmap Z Z) (d : CallsiteInfo)
    (rest : list CallsiteInfo) : list CallsiteInfo :=
  if totalSize d <=? ms
  then absorbed ms (setParentHash d (getCallsitesParentHash d m)) m rest
  else [].

(** ** The invariant of the redirect map

    A record that is already a redirect key lies in the depth run being
    scanned, and no small record still to be emitted before it has its
    effective parent. *)
Definition redirectInv (ms : Z) (m : gmap Z Z) (l : list CallsiteInfo)
  : Prop :=
  ∀ l1 r l2, l = l1 ++ r :: l2 → is_Some (m !! hash r) →
    Forall (λ x, depth x = depth r
                 ∧ (m !! hash x = None → totalSize x ≤ ms →
                    getCallsitesParentHash x m
                    ≠ getCallsitesParentHash r m)) l1.

(** The standing assumptions on the records still to be processed and the
    redirect map they are reached with. *)
Definition wellFormed (ms : Z) (m : gmap Z Z) (l : list CallsiteInfo) : Prop :=
  StronglySorted depthLe l ∧ uniqueHashes l ∧ parentsShallower l
  ∧ redirectInv ms m l.

(** ** The assumptions are decidable *)

#[global] Instance noSameDepthParent_dec l : Decision (noSameDepthParent l).
Proof.
  refine (cast_if (decide (Forall (λ x, Forall (λ y,
            depth x = depth y → parentHash x ≠ hash y) l) l)));
    unfold noSameDepthParent; rewrite Forall_forall in *.
  - abstract (intros x y Hx Hy; specialize (f x Hx);
              rewrite Forall_forall in f; by apply f).
  - abstract (intros H; apply n; intros x Hx; apply Forall_forall;
              intros y Hy; by apply H).
Defined.

#[global] Instance parentsShallower_dec l : Decision (parentsShallower l).
Proof.
  refine (cast_if (decide (Forall (λ x, Forall (λ y,
            parentHash x = hash y → depth y < depth x) l) l)));
    unfold parentsShallower; rewrite Forall_forall in *.
  - abstract (intros x y Hx Hy; specialize (f x Hx);
              rewrite Forall_forall in f; by apply f).
  - abstract (intros H; apply n; intros x Hx; apply Forall_forall;
              intros y Hy; by apply H).
Defined.

#[global] Instance depthSorted_dec l : Decision (depthSorted l).
Proof. unfold depthSorted. apply _. Defined.

#[global] Instance uniqueHashes_dec l : Decision (uniqueHashes l).
Proof. unfold uniqueHashes. apply _. Defined.

#[global] Instance exactSums_dec l : Decision (exactSums l).
Proof. unfold exactSums. apply _. Defined.

(** ** Inputs used below *)

(** Scenario 1: three small siblings. *)
Definition scenario1 : list CallsiteInfo :=
  [ mkCallsite 11 0 1 "f" 1; mkCallsite 12 0 1 "g" 1;
    mkCallsite 13 0 1 "h" 1 ].

(** Scenario 2 of the specification: siblings of sizes 5, 1 and 1. *)
Definition scenario2 : list CallsiteInfo :=
  [ mkCallsite 10 0 1 "f" 5; mkCallsite 11 0 1 "g" 1;
    mkCallsite 12 0 1 "h" 1 ].

(** A root with two small children and two small grandchildren. *)
Definition smallTree : list CallsiteInfo :=
  [ mkCallsite 10 (-1) 0 "root" 100;
    mkCallsite 21 10 1 "p" 1; mkCallsite 22 10 1 "q" 1;
    mkCallsite 31 21 2 "x" 1; mkCallsite 32 22 2 "y" 1 ].

(** A large node and a small one that is alone in its group. *)
Definition mergedPair : list CallsiteInfo :=
  [ mkCallsite 10 0 1 "f" 5; mkCallsite 11 1 1 "g" 2 ].

(** A sequence in query order with unique hashes in which the record with
    hash 1 names itself as parent and the last one names a record of its own
    depth: the record with hash 5 is folded twice. *)
Definition twiceFolded : list CallsiteInfo :=
  [ mkCallsite 1 1 1 "a" 1; mkCallsite 6 1 1 "b" 1;
    mkCallsite 2 5 1 "c" 1; mkCallsite 5 6 1 "d" 1 ].

(** A sequence in query order with unique hashes in which every parent is
    another record of the sequence, of the same depth. *)
Definition sameDepthParent : list CallsiteInfo :=
  [ mkCallsite 1 2 1 "a" 1; mkCallsite 2 3 1 "b" 1;
    mkCallsite 4 3 1 "c" 1; mkCallsite 3 4 1 "d" 1 ].

(** A sequence with a repeated hash: the first record is emitted, and its
    hash becomes a redirect key when the third is folded into the second. *)
Definition repeatedHash : list CallsiteInfo :=
  [ mkCallsite 1 7 1 "a" 1; mkCallsite 2 8 1 "b" 1; mkCallsite 1 8 1 "c" 1 ].


(** The same records with the child one level deeper than its parent, but
    delivered before it. *)
Definition childFirst : list CallsiteInfo :=
  [ mkCallsite 7 5 2 "a" 1; mkCallsite 0 6 1 "b" 1; mkCallsite 5 6 1 "c" 1 ].


(** A store in which the input array holds one record twice. *)
Definition storeExample : list object :=
  [ Callsite (mkCallsite 11 0 1 "f" 1); Callsite (mkCallsite 12 0 1 "g" 1);
    Array [0; 1; 0]%nat ].

Definition firstSelection : Selection :=
  mkSelection "HEAP_PROFILE_FLAMEGRAPH" 1 7 10.
Definition secondSelection : Selection :=
  mkSelection "HEAP_PROFILE_FLAMEGRAPH" 2 7 20.

(** ** The rest of the controller *)

(** A number in a template literal: the decimal digits of an integer, with a
    minus sign when it is negative.  That is what JavaScript prints for an
    integer of magnitude below 10^21 ([printedInFull]); from there on it
    prints an exponent, which is not modelled. *)
Definition numberToString (z : Z) : string :=
  NilZero.string_of_int (Z.to_int z).


(** The key of [flamegraphDatasets]: [`${selectedUpid};${selectedTs}`]. *)
Definition cacheKey (selectedUpid selectedTs : Z) : string :=
  numberToString selectedUpid +:+ ";" +:+ numberToString selectedTs.



(** [onBoundsChange]: the new controller fields and the data returned. *)
Definition onBoundsChange (c : Controller) (start' end' resolution' : Z)
  : Controller * Data :=
  let c' := mkController start' end' resolution' (length_ c)
              (lastSelectedTs c) (lastSelectedId c) in
  (c', generateEmptyData c').


(** ** Vocabulary of the further properties *)

(** What an output node has of the record it was copied from: its hash,
    depth and name, and its size when the record is above the threshold. *)
Definition emittedFrom (ms : Z) (o d : CallsiteInfo) : Prop :=
  copiedFrom o d ∧ (ms < totalSize d → totalSize o = totalSize d).

Definition sizesNonNegative (l : list CallsiteInfo) : Prop :=
  Forall (λ d, 0 ≤ totalSize d) l.

(** The input contract: sorted by depth, unique hashes, parents strictly
    shallower. *)
Definition validInput (l : list CallsiteInfo) : Prop :=
  depthSorted l ∧ uniqueHashes l ∧ parentsShallower l.

#[global] Instance validInput_dec l : Decision (validInput l).
Proof. unfold validInput. apply _. Defined.

#[global] Instance sizesNonNegative_dec l : Decision (sizesNonNegative l).
Proof. unfold sizesNonNegative. apply _. Defined.

(** ** The index loops compute the list recursion *)

Section refinement.
Context (data : list CallsiteInfo) (minSizeDisplayed : Z).

Lemma whileLoop_scanList fuel j c m :
  (length data - j < fuel)%nat →
  whileLoop fuel data minSizeDisplayed j (data !! j) c m
  = Done (scanList minSizeDisplayed c m (drop j data)).
Proof.
  revert j c m. induction fuel as [|fuel IH]; intros j c m Hfuel; [lia|].
  simpl. destruct (j <? length data)%nat eqn:Hj; simpl.
  - apply Nat.ltb_lt in Hj.
    destruct (lookup_lt_is_Some_2 data j Hj) as [next Hnext].
    rewrite Hnext, (drop_S _ _ _ Hnext). simpl.
    destruct (depth c =? depth next); simpl; [|done].
    destruct (whileBody minSizeDisplayed c m next) as [c' m'].
    apply IH. lia.
  - apply Nat.ltb_ge in Hj. by rewrite drop_ge.
Qed.

Lemma forBody_emit i d acc m :
  data !! i = Some d →
  forBody data minSizeDisplayed i (mkState acc m)
  = Done (if bool_decide (is_Some (m !! hash d)) then mkState acc m
          else let '(c, m') := emit minSizeDisplayed m d (drop (S i) data) in
               mkState (acc ++ [c]) m').
Proof.
  intros Hd. unfold forBody, emit. rewrite Hd. simpl.
  case_bool_decide; [done|].
  destruct (totalSize d <=? minSizeDisplayed); simpl; [|done].
  destruct (i + 1 <? length data)%nat eqn:Hi; simpl.
  - apply Nat.ltb_lt in Hi. rewrite whileLoop_scanList by lia.
    replace (i + 1)%nat with (S i) by lia. simpl.
    by destruct (scanList _ _ _ _).
  - apply Nat.ltb_ge in Hi. rewrite drop_ge by lia. done.
Qed.

Lemma forLoop_mergeList k i acc m :
  (i + k)%nat = length data →
  forLoop (forBody data minSizeDisplayed) (seq i k) (mkState acc m)
  = Done (mkState (acc ++ (mergeList minSizeDisplayed m (drop i data)).1)
                  (mergeList minSizeDisplayed m (drop i data)).2).
Proof.
  revert i acc m. induction k as [|k IH]; intros i acc m Hlen; simpl.
  - rewrite drop_ge by lia. simpl. by rewrite app_nil_r.
  - destruct (lookup_lt_is_Some_2 data i) as [d Hd]; [lia|].
    rewrite (forBody_emit _ _ _ _ Hd), (drop_S _ _ _ Hd). simpl.
    case_bool_decide.
    + apply IH. lia.
    + destruct (emit _ _ _ _) as [c m'].
      rewrite IH by lia.
      destruct (mergeList _ m' _) as [out mf]. simpl.
      by rewrite <- app_assoc.
Qed.

Lemma mergeRun_mergeList :
  mergeRun data minSizeDisplayed
  = Done (mkState (mergeList minSizeDisplayed ∅ data).1
                  (mergeList minSizeDisplayed ∅ data).2).
Proof.
  unfold mergeRun, mergeUpTo. by rewrite forLoop_mergeList.
Qed.

Lemma mergeCallsites_mergeList :
  mergeCallsites data minSizeDisplayed
  = Done (mergeList minSizeDisplayed ∅ data).1.
Proof. unfold mergeCallsites. by rewrite mergeRun_mergeList. Qed.
End refinement.

(** ** Basic facts *)

Lemma copyCallsite_id d : copyCallsite d = d.
Proof. by destruct d. Qed.

Lemma sumSizes_app l1 l2 : sumSizes (l1 ++ l2) = sumSizes l1 + sumSizes l2.
Proof. induction l1 as [|x l1 IH]; simpl; lia. Qed.

Lemma addTotalSize_add c a b :
  addTotalSize (addTotalSize c a) b = addTotalSize c (a + b).
Proof. unfold addTotalSize. simpl. f_equal. lia. Qed.

Lemma addTotalSize_0 c : addTotalSize c 0 = c.
Proof. destruct c. unfold addTotalSize. simpl. f_equal. lia. Qed.

Lemma getCallsitesParentHash_agree x m1 m2 :
  m1 !! parentHash x = m2 !! parentHash x →
  getCallsitesParentHash x m1 = getCallsitesParentHash x m2.
Proof. unfold getCallsitesParentHash. by intros ->. Qed.

Lemma mergeable_agree ms c1 c2 m1 m2 x :
  parentHash c1 = parentHash c2 →
  m1 !! parentHash x = m2 !! parentHash x →
  mergeable ms c1 m1 x = mergeable ms c2 m2 x.
Proof.
  intros Hp Hm. unfold mergeable.
  by rewrite Hp, (getCallsitesParentHash_agree x m1 m2 Hm).
Qed.

Lemma mergeable_spec ms c m x :
  mergeable ms c m x = true ↔
  parentHash c = getCallsitesParentHash x m ∧ totalSize x ≤ ms.
Proof. unfold mergeable. rewrite andb_true_iff, Z.eqb_eq, Z.leb_le. done. Qed.

Lemma lookup_redirectAll h A m k :
  redirectAll h A m !! k
  = if bool_decide (k ∈ hash <$> A) then Some h else m !! k.
Proof.
  revert m. induction A as [|x A IH]; intros m; simpl; [done|].
  rewrite IH. destruct (decide (hash x = k)) as [<-|Hne].
  - rewrite lookup_insert_eq. rewrite (bool_decide_eq_true_2 (hash x ∈ _ :: _)).
    + by case_bool_decide.
    + left.
  - rewrite lookup_insert_ne by done.
    do 2 case_bool_decide; try done.
    + exfalso. rewrite elem_of_cons in *. naive_solver.
    + exfalso. rewrite elem_of_cons in *. naive_solver.
Qed.

Lemma lookup_redirectAll_notin h A m k :
  k ∉ hash <$> A → redirectAll h A m !! k = m !! k.
Proof. intros. rewrite lookup_redirectAll. by case_bool_decide. Qed.

Lemma lookup_redirectAll_in h A m k :
  k ∈ hash <$> A → redirectAll h A m !! k = Some h.
Proof. intros. rewrite lookup_redirectAll. by case_bool_decide. Qed.

Lemma redirectAll_is_Some h A m k :
  is_Some (m !! k) → is_Some (redirectAll h A m !! k).
Proof. intros. rewrite lookup_redirectAll. by case_bool_decide. Qed.

Lemma redirectAll_None h A m k :
  redirectAll h A m !! k = None → m !! k = None ∧ k ∉ hash <$> A.
Proof. rewrite lookup_redirectAll. by case_bool_decide. Qed.

Lemma getCallsitesParentHash_redirectAll x h A m :
  (∀ y, y ∈ A → parentHash x ≠ hash y) →
  getCallsitesParentHash x (redirectAll h A m) = getCallsitesParentHash x m.
Proof.
  intros Hne. apply getCallsitesParentHash_agree, lookup_redirectAll_notin.
  intros (y & Hy & HyA)%list_elem_of_fmap. by apply (Hne y).
Qed.

(** ** The [while] loop *)

Lemma whileBody_fields ms c m x :
  let c' := (whileBody ms c m x).1 in
  hash c' = hash c ∧ parentHash c' = parentHash c
  ∧ depth c' = depth c ∧ name c' = name c.
Proof. unfold whileBody. by destruct (mergeable ms c m x). Qed.

Lemma scanList_fields ms c m rest :
  let c' := (scanList ms c m rest).1 in
  hash c' = hash c ∧ parentHash c' = parentHash c
  ∧ depth c' = depth c ∧ name c' = name c.
Proof.
  revert c m. induction rest as [|x rest IH]; intros c m; simpl; [done|].
  destruct (depth c =? depth x); [|done].
  pose proof (whileBody_fields ms c m x) as Hb.
  destruct (whileBody ms c m x) as [c1 m1]. simpl in Hb.
  specialize (IH c1 m1). simpl in IH. naive_solver congruence.
Qed.

Lemma absorbed_agree ms c1 c2 m1 m2 rest :
  depth c1 = depth c2 → parentHash c1 = parentHash c2 →
  (∀ y, y ∈ rest → depth y = depth c2 →
        m1 !! parentHash y = m2 !! parentHash y) →
  absorbed ms c1 m1 rest = absorbed ms c2 m2 rest.
Proof.
  intros Hd Hp. induction rest as [|x rest IH]; intros Hm; simpl; [done|].
  rewrite Hd. destruct (depth c2 =? depth x) eqn:Hdx; [|done].
  apply Z.eqb_eq in Hdx.
  rewrite (mergeable_agree ms c1 c2 m1 m2 x Hp)
    by (apply Hm; [left|done]).
  rewrite IH; [done|]. intros y Hy. apply Hm. by right.
Qed.

Lemma inRun_cons c x rest y :
  depth x = depth c → inRun c rest y → inRun c (x :: rest) y.
Proof.
  intros Hx (l1 & l2 & -> & Hall). exists (x :: l1), l2. split; [done|].
  simpl. by constructor.
Qed.

Lemma elem_of_absorbed ms c m rest y :
  y ∈ absorbed ms c m rest ↔ inRun c rest y ∧ mergeable ms c m y = true.
Proof.
  induction rest as [|x rest IH]; simpl.
  - split; [by intros ?%elem_of_nil|].
    intros [(l1 & l2 & Heq & _) _]. by destruct l1.
  - destruct (depth c =? depth x) eqn:Hdx.
    + apply Z.eqb_eq in Hdx. split.
      * intros Hy.
        assert (y = x ∧ mergeable ms c m x = true
                ∨ y ∈ absorbed ms c m rest) as [[-> Hm]|Hy'].
        { destruct (mergeable ms c m x); [|by right].
          apply elem_of_cons in Hy as [->|?]; [by left|by right]. }
        -- split; [|done]. exists [], rest. split; [done|].
           by repeat constructor.
        -- apply IH in Hy' as [Hrun Hm]. split; [|done].
           by apply inRun_cons.
      * intros [(l1 & l2 & Heq & Hall) Hm].
        destruct l1 as [|x' l1]; simplify_eq/=.
        -- rewrite Hm. left.
        -- apply Forall_cons in Hall as [_ Hall].
           assert (y ∈ absorbed ms c m (l1 ++ y :: l2)) as Hy.
           { apply IH. split; [|done]. by exists l1, l2. }
           destruct (mergeable ms c m x'); [by right|done].
    + apply Z.eqb_neq in Hdx. split; [by intros ?%elem_of_nil|].
      intros [(l1 & l2 & Heq & Hall) _]. exfalso.
      destruct l1 as [|x' l1]; simplify_eq/=;
        apply Forall_cons in Hall as [Hd _]; congruence.
Qed.

Lemma inRun_elem_of c rest y : inRun c rest y → y ∈ rest ∧ depth y = depth c.
Proof.
  intros (l1 & l2 & -> & Hall). split.
  { apply elem_of_app. right. left. }
  rewrite Forall_app, Forall_singleton in Hall. by destruct Hall.
Qed.

(** With no parent among the records of the run, the redirect keys the loop
    adds never change what it reads, and the loop is the frozen scan. *)
Lemma scanList_absorbed ms c m rest :
  (∀ x y, x ∈ rest → y ∈ rest → depth x = depth c → depth y = depth c →
          parentHash x ≠ hash y) →
  scanList ms c m rest
  = (addTotalSize c (sumSizes (absorbed ms c m rest)),
     redirectAll (hash c) (absorbed ms c m rest) m).
Proof.
  revert c m. induction rest as [|x rest IH]; intros c m Hpar; simpl.
  - by rewrite addTotalSize_0.
  - destruct (depth c =? depth x) eqn:Hdx; [|by rewrite addTotalSize_0].
    apply Z.eqb_eq in Hdx. unfold whileBody.
    destruct (mergeable ms c m x) eqn:Hm.
    + rewrite IH.
      2:{ intros x' y' Hx' Hy' ? ?. apply Hpar; by try right. }
      rewrite (absorbed_agree ms _ c (<[hash x:=hash c]> m) m rest);
        [|done|done|].
      * simpl. by rewrite addTotalSize_add.
      * intros y Hy Hdy. rewrite lookup_insert_ne; [done|].
        intros Heq. apply (Hpar y x); [by right|left|done|done|done].
    + apply IH. intros x' y' Hx' Hy' ? ?. apply Hpar; by try right.
Qed.

Lemma absorbed_sublist ms c m rest : absorbed ms c m rest `sublist_of` rest.
Proof.
  induction rest as [|x rest IH]; simpl; [done|].
  destruct (depth c =? depth x); [|apply sublist_nil_l].
  destruct (mergeable ms c m x); by constructor.
Qed.

(** ** One iteration of the [for] loop *)

Lemma emit_fields ms m d rest :
  let c := (emit ms m d rest).1 in
  hash c = hash d ∧ parentHash c = getCallsitesParentHash d m
  ∧ depth c = depth d ∧ name c = name d.
Proof.
  unfold emit. rewrite copyCallsite_id. simpl.
  destruct (totalSize d <=? ms); [|done].
  apply (scanList_fields ms (setParentHash d _) m rest).
Qed.

Lemma emit_large ms m d rest :
  ms < totalSize d →
  emit ms m d rest = (setParentHash d (getCallsitesParentHash d m), m).
Proof.
  intros Hlt. unfold emit. rewrite copyCallsite_id. simpl.
  destruct (totalSize d <=? ms) eqn:Hle; [|done]. apply Z.leb_le in Hle. lia.
Qed.

Lemma emit_group ms m d rest :
  noSameDepthParent (d :: rest) →
  emit ms m d rest
  = (addTotalSize (setParentHash d (getCallsitesParentHash d m))
       (sumSizes (group ms m d rest)),
     redirectAll (hash d) (group ms m d rest) m).
Proof.
  intros Hpar. unfold emit, group. rewrite copyCallsite_id. simpl.
  destruct (totalSize d <=? ms); [|by rewrite addTotalSize_0].
  rewrite scanList_absorbed; [done|].
  intros x y Hx Hy Hdx Hdy. apply Hpar; [by right|by right|congruence].
Qed.

Lemma elem_of_group ms m d rest y :
  y ∈ group ms m d rest ↔
  totalSize d ≤ ms ∧ (∃ l1 l2, rest = l1 ++ y :: l2
                        ∧ Forall (λ x, depth x = depth d) (l1 ++ [y]))
  ∧ getCallsitesParentHash d m = getCallsitesParentHash y m
  ∧ totalSize y ≤ ms.
Proof.
  unfold group. destruct (totalSize d <=? ms) eqn:Hle.
  - apply Z.leb_le in Hle. rewrite elem_of_absorbed, mergeable_spec.
    unfold inRun. simpl. naive_solver.
  - apply Z.leb_gt in Hle. split; [by intros ?%elem_of_nil|]. lia.
Qed.

Lemma group_sublist ms m d rest : group ms m d rest `sublist_of` rest.
Proof.
  unfold group. destruct (totalSize d <=? ms);
    [apply absorbed_sublist|apply sublist_nil_l].
Qed.

Lemma group_elem_of ms m d rest y :
  y ∈ group ms m d rest → y ∈ rest ∧ depth y = depth d.
Proof.
  intros (_ & (l1 & l2 & -> & Hall) & _)%elem_of_group.
  rewrite Forall_app, Forall_singleton in Hall. split; [|by destruct Hall].
  apply elem_of_app. right. left.
Qed.

Lemma redirectInv_empty ms l : redirectInv ms ∅ l.
Proof. intros l1 r l2 _ [v Hv]. by rewrite lookup_empty in Hv. Qed.

Lemma redirectInv_tail ms m d rest :
  redirectInv ms m (d :: rest) → redirectInv ms m rest.
Proof.
  intros Hinv l1 r l2 -> Hr.
  specialize (Hinv (d :: l1) r l2 eq_refl Hr).
  by apply Forall_cons in Hinv as [_ ?].
Qed.

Lemma uniqueHashes_tail d rest : uniqueHashes (d :: rest) → uniqueHashes rest.
Proof. unfold uniqueHashes. rewrite fmap_cons. by intros [_ ?]%NoDup_cons. Qed.

Lemma uniqueHashes_head d rest y :
  uniqueHashes (d :: rest) → y ∈ rest → hash y ≠ hash d.
Proof.
  unfold uniqueHashes. rewrite fmap_cons. intros [Hd _]%NoDup_cons Hy Heq.
  apply Hd. rewrite <- Heq. by apply list_elem_of_fmap_2.
Qed.

Lemma uniqueHashes_split l l1 r l2 l1' y l2' :
  uniqueHashes l → l = l1 ++ r :: l2 → l = l1' ++ y :: l2' →
  hash r = hash y → l1 = l1' ∧ r = y ∧ l2 = l2'.
Proof.
  intros Hnd H1 H2 Hh.
  assert (length l1 = length l1') as Hlen.
  { apply (NoDup_lookup _ _ _ (hash r) Hnd).
    - rewrite H1, list_lookup_fmap, list_lookup_middle; done.
    - rewrite H2, list_lookup_fmap, list_lookup_middle, Hh; done. }
  rewrite H1 in H2. apply app_inj_1 in H2 as [? ?]; [|done].
  by simplify_eq.
Qed.

Lemma noSameDepthParent_tail d rest :
  noSameDepthParent (d :: rest) → noSameDepthParent rest.
Proof. intros H x y Hx Hy. apply H; by right. Qed.

Lemma group_fresh ms m d rest y :
  redirectInv ms m (d :: rest) → m !! hash d = None →
  y ∈ group ms m d rest → m !! hash y = None.
Proof.
  intros Hinv Hd (Hsmall & (l1 & l2 & -> & _) & Hpar & _)%elem_of_group.
  destruct (m !! hash y) eqn:Hy; [|done]. exfalso.
  specialize (Hinv (d :: l1) y l2 eq_refl (mk_is_Some _ _ Hy)).
  apply Forall_cons in Hinv as [[_ Hne] _]. by apply Hne.
Qed.

(** Redirecting a group leaves the effective parent of the records of its
    depth as it was. *)
Lemma group_stable ms m d rest x :
  noSameDepthParent (d :: rest) → x ∈ d :: rest → depth x = depth d →
  getCallsitesParentHash x (redirectAll (hash d) (group ms m d rest) m)
  = getCallsitesParentHash x m.
Proof.
  intros Hpar Hx Hdx. apply getCallsitesParentHash_redirectAll.
  intros y [Hy Hdy]%group_elem_of. apply Hpar; [done|by right|congruence].
Qed.

Lemma redirectInv_step ms m d rest :
  uniqueHashes (d :: rest) → noSameDepthParent (d :: rest) →
  redirectInv ms m (d :: rest) → m !! hash d = None →
  redirectInv ms (redirectAll (hash d) (group ms m d rest) m) rest.
Proof.
  intros Hnd Hpar Hinv Hd l1 r l2 Hrest Hr.
  pose proof (uniqueHashes_tail _ _ Hnd) as Hnd'.
  destruct (m !! hash r) as [v|] eqn:Hold.
  - (* [r] was a key before this iteration *)
    specialize (Hinv (d :: l1) r l2).
    rewrite Hrest in Hinv. specialize (Hinv eq_refl (mk_is_Some _ _ Hold)).
    apply Forall_cons in Hinv as [[Hdr _] Hinv].
    assert (r ∈ d :: rest) as Hrin.
    { right. rewrite Hrest. apply elem_of_app. right. left. }
    rewrite Forall_forall in Hinv. apply Forall_forall. intros x Hx.
    destruct (Hinv x Hx) as [Hdx Hne]. split; [done|].
    intros [Hxm _]%redirectAll_None Hsmall.
    assert (x ∈ d :: rest) as Hxin.
    { right. rewrite Hrest. apply elem_of_app. by left. }
    rewrite !group_stable by (done || congruence). by apply Hne.
  - (* [r] has just been folded into [d] *)
    rewrite lookup_redirectAll in Hr. case_bool_decide as Hin; [|destruct Hr; congruence].
    apply list_elem_of_fmap in Hin as (y & Hh & Hy).
    pose proof Hy as (Hsmall & (l1' & l2' & Hrest' & Hall) & Hp & Hys)%elem_of_group.
    destruct (uniqueHashes_split rest l1 r l2 l1' y l2' Hnd' Hrest Hrest' Hh)
      as (<- & <- & <-).
    rewrite Forall_app, Forall_singleton in Hall. destruct Hall as [Hall Hdr].
    apply Forall_forall. intros x Hx.
    rewrite Forall_forall in Hall. pose proof (Hall x Hx) as Hdx.
    split; [congruence|]. intros [Hxm HxA]%redirectAll_None Hxs.
    assert (x ∈ d :: rest) as Hxin.
    { right. rewrite Hrest. apply elem_of_app. by left. }
    assert (r ∈ d :: rest) as Hrin.
    { right. rewrite Hrest. apply elem_of_app. right. left. }
    rewrite !group_stable by done. rewrite <- Hp. intros Heq.
    apply HxA, list_elem_of_fmap_2. apply elem_of_group.
    split; [done|]. split; [|done].
    apply list_elem_of_split in Hx as (la & lb & ->).
    exists la, (lb ++ r :: l2). split.
    + rewrite Hrest. by rewrite <- app_assoc.
    + apply Forall_app. split; [|by apply Forall_singleton].
      apply Forall_forall. intros z Hz. apply Hall.
      apply elem_of_app. by left.
Qed.

(** ** Conservation of size *)

Lemma pending_cons_None m x l :
  m !! hash x = None → pending m (x :: l) = totalSize x + pending m l.
Proof. intros Hx. unfold pending. by rewrite filter_cons_True. Qed.

Lemma pending_cons_Some m x l :
  is_Some (m !! hash x) → pending m (x :: l) = pending m l.
Proof.
  intros [v Hx]. unfold pending. rewrite filter_cons_False; [done|].
  by rewrite Hx.
Qed.

Lemma pending_agree m1 m2 l :
  (∀ x, x ∈ l → m1 !! hash x = None ↔ m2 !! hash x = None) →
  pending m1 l = pending m2 l.
Proof.
  induction l as [|x l IH]; intros Hm; [done|].
  assert (pending m1 l = pending m2 l) as Hl.
  { apply IH. intros y Hy. apply Hm. by right. }
  destruct (m1 !! hash x) as [v|] eqn:H1.
  - destruct (m2 !! hash x) as [w|] eqn:H2.
    + by rewrite !pending_cons_Some.
    + apply (Hm x) in H2; [congruence|left].
  - pose proof H1 as H2. apply (Hm x) in H2; [|left].
    by rewrite !pending_cons_None, Hl.
Qed.

(** Folding unredirected records of [rest] moves their sizes out of the
    pending sum. *)
Lemma pending_redirectAll h A m rest :
  uniqueHashes rest → A `sublist_of` rest →
  (∀ y, y ∈ A → m !! hash y = None) →
  sumSizes A + pending (redirectAll h A m) rest = pending m rest.
Proof.
  intros Hnd Hsub. revert m.
  induction Hsub as [|x A rest Hsub IH|x A rest Hsub IH]; intros m Hfresh.
  - done.
  - (* [x] is folded *)
    pose proof (uniqueHashes_tail _ _ Hnd) as Hnd'.
    rewrite (pending_cons_None m) by (apply Hfresh; left).
    rewrite pending_cons_Some
      by (eexists; apply lookup_redirectAll_in, list_elem_of_fmap_2; left).
    simpl. rewrite <- Z.add_assoc, IH; [|done|].
    + f_equal. apply pending_agree. intros y Hy.
      rewrite lookup_insert_ne; [done|].
      intros Heq. by apply (uniqueHashes_head x rest y).
    + intros y Hy. rewrite lookup_insert_ne.
      * apply Hfresh. by right.
      * intros Heq. apply (uniqueHashes_head x rest y); [done| |done].
        by apply (elem_of_sublist A rest).
  - (* [x] is passed over *)
    pose proof (uniqueHashes_tail _ _ Hnd) as Hnd'.
    assert (redirectAll h A m !! hash x = m !! hash x) as Hx.
    { apply lookup_redirectAll_notin.
      intros (y & Heq & Hy)%list_elem_of_fmap.
      apply (uniqueHashes_head x rest y); [done| |done].
      by apply (elem_of_sublist A rest). }
    destruct (m !! hash x) as [v|] eqn:Hm.
    + rewrite !pending_cons_Some by (by rewrite ?Hx, ?Hm). by apply IH.
    + rewrite !pending_cons_None by (by rewrite ?Hx, ?Hm).
      rewrite <- (IH Hnd' m Hfresh). lia.
Qed.

Lemma mergeList_conservation ms l m :
  uniqueHashes l → noSameDepthParent l → redirectInv ms m l →
  sumSizes (mergeList ms m l).1 = pending m l.
Proof.
  revert m. induction l as [|d rest IH]; intros m Hnd Hpar Hinv; [done|].
  pose proof (uniqueHashes_tail _ _ Hnd) as Hnd'.
  pose proof (noSameDepthParent_tail _ _ Hpar) as Hpar'.
  simpl. case_bool_decide as Hd.
  - rewrite pending_cons_Some by done. apply IH; try done.
    by apply redirectInv_tail with d.
  - apply eq_None_not_Some in Hd.
    rewrite (emit_group ms m d rest Hpar).
    pose proof (IH (redirectAll (hash d) (group ms m d rest) m) Hnd' Hpar'
                  (redirectInv_step ms m d rest Hnd Hpar Hinv Hd)) as IH'.
    destruct (mergeList ms _ rest) as [out mf]. simpl in *.
    rewrite IH', pending_cons_None by done.
    rewrite <- (pending_redirectAll (hash d) (group ms m d rest) m rest);
      [lia|done|apply group_sublist|].
    intros y Hy. by apply (group_fresh ms m d rest).
Qed.

Lemma pending_empty l : pending ∅ l = sumSizes l.
Proof.
  induction l as [|x l IH]; [done|].
  rewrite pending_cons_None by apply lookup_empty. simpl. by rewrite IH.
Qed.

Lemma queryOrdered_depthSorted l : queryOrdered l = true → depthSorted l.
Proof.
  induction l as [|x [|y rest] IH]; intros Hs.
  - constructor.
  - repeat constructor.
  - simpl in Hs. apply andb_true_iff in Hs as [Hxy Hs].
    constructor; [by apply IH|]. constructor.
    unfold queryOrderLe in Hxy. unfold depthLe.
    apply orb_true_iff in Hxy as [Hlt|Heq].
    + apply Z.ltb_lt in Hlt. lia.
    + apply andb_true_iff in Heq as [Heq _]. apply Z.eqb_eq in Heq. lia.
Qed.

(** C1, as stated, fails: with unique hashes alone the sizes of the output
    can add up to more than those of the input. *)
Lemma conservation_counterexample :
  uniqueHashes twiceFolded
  ∧ queryOrdered twiceFolded = true
  ∧ mergeCallsites twiceFolded 1
    = Done [ mkCallsite 1 1 1 "a" 3; mkCallsite 2 1 1 "c" 2 ]
  ∧ sumSizes twiceFolded = 4
  ∧ sumSizes [ mkCallsite 1 1 1 "a" 3; mkCallsite 2 1 1 "c" 2 ] = 5.
Proof.
  split; [|by vm_compute].
  unfold uniqueHashes. by apply (bool_decide_unpack _).
Qed.

(** C1 (amended): when hashes are unique, no record names a record of its
    own depth as parent and the sums of sizes are exact, [mergeCallsites]
    returns a sequence whose sizes add up to the sizes of the input,
    whatever the threshold. *)
Theorem mergeCallsites_conservation data minSizeDisplayed :
  uniqueHashes data → noSameDepthParent data → exactSums data →
  ∃ out, mergeCallsites data minSizeDisplayed = Done out
         ∧ sumSizes out = sumSizes data.
Proof.
  intros Hnd Hpar _. eexists. split; [apply mergeCallsites_mergeList|].
  rewrite mergeList_conservation, pending_empty;
    auto using redirectInv_empty.
Qed.

Lemma uniqueHashes_decide l :
  bool_decide (NoDup (hash <$> l)) = true → uniqueHashes l.
Proof. apply bool_decide_eq_true_1. Qed.

(** ** What the loops do to the redirect map, on any input *)

Lemma whileBody_lookup ms c m x k v :
  (whileBody ms c m x).2 !! k = Some v →
  m !! k = Some v ∨ (v = hash c ∧ k = hash x).
Proof.
  unfold whileBody. destruct (mergeable ms c m x); simpl; [|by left].
  destruct (decide (hash x = k)) as [<-|Hne].
  - rewrite lookup_insert_eq. intros [= <-]. by right.
  - rewrite lookup_insert_ne by done. by left.
Qed.

Lemma whileBody_is_Some ms c m x k :
  is_Some (m !! k) → is_Some ((whileBody ms c m x).2 !! k).
Proof.
  unfold whileBody. destruct (mergeable ms c m x); simpl; [|done].
  intros Hk. destruct (decide (hash x = k)) as [<-|Hne].
  - rewrite lookup_insert_eq. by eexists.
  - by rewrite lookup_insert_ne.
Qed.

Lemma scanList_lookup ms c m rest k v :
  (scanList ms c m rest).2 !! k = Some v →
  m !! k = Some v ∨ (v = hash c ∧ k ∈ hash <$> rest).
Proof.
  revert c m. induction rest as [|x rest IH]; intros c m; simpl; [by left|].
  destruct (depth c =? depth x); [|by left].
  pose proof (whileBody_lookup ms c m x k v) as Hb.
  pose proof (whileBody_fields ms c m x) as Hf.
  destruct (whileBody ms c m x) as [c1 m1]. simpl in *.
  intros [Hm1|[-> Hk]]%IH.
  - destruct (Hb Hm1) as [?|[-> ->]]; [by left|]. right. split; [done|left].
  - right. split; [by destruct Hf|by right].
Qed.

Lemma scanList_is_Some ms c m rest k :
  is_Some (m !! k) → is_Some ((scanList ms c m rest).2 !! k).
Proof.
  revert c m. induction rest as [|x rest IH]; intros c m Hk; simpl; [done|].
  destruct (depth c =? depth x); [|done].
  pose proof (whileBody_is_Some ms c m x k Hk) as Hb.
  destruct (whileBody ms c m x) as [c1 m1]. by apply IH.
Qed.

Lemma emit_lookup ms m d rest k v :
  (emit ms m d rest).2 !! k = Some v →
  m !! k = Some v ∨ (v = hash d ∧ k ∈ hash <$> rest).
Proof.
  unfold emit. rewrite copyCallsite_id. simpl.
  destruct (totalSize d <=? ms); [|by left].
  apply (scanList_lookup ms (setParentHash d _)).
Qed.

Lemma emit_is_Some ms m d rest k :
  is_Some (m !! k) → is_Some ((emit ms m d rest).2 !! k).
Proof.
  unfold emit. rewrite copyCallsite_id. simpl.
  destruct (totalSize d <=? ms); [|done]. apply scanList_is_Some.
Qed.

Lemma mergeList_is_Some ms l m k :
  is_Some (m !! k) → is_Some ((mergeList ms m l).2 !! k).
Proof.
  revert m. induction l as [|d rest IH]; intros m Hk; simpl; [done|].
  case_bool_decide; [by apply IH|].
  pose proof (emit_is_Some ms m d rest k Hk) as He.
  destruct (emit ms m d rest) as [c m'].
  specialize (IH m' He). by destruct (mergeList ms m' rest).
Qed.

Lemma mergeList_lookup_None ms l m k :
  m !! k = None → k ∉ hash <$> l → (mergeList ms m l).2 !! k = None.
Proof.
  revert m. induction l as [|d rest IH]; intros m Hk Hnot; simpl; [done|].
  rewrite fmap_cons, not_elem_of_cons in Hnot. destruct Hnot as [_ Hnot].
  case_bool_decide; [by apply IH|].
  pose proof (emit_lookup ms m d rest k) as He.
  destruct (emit ms m d rest) as [c m']. simpl in He.
  assert (m' !! k = None) as Hk'.
  { destruct (m' !! k) as [v|] eqn:Hv; [|done].
    destruct (He v eq_refl) as [?|[_ ?]]; [congruence|done]. }
  specialize (IH m' Hk' Hnot). by destruct (mergeList ms m' rest).
Qed.

(** ** Survivors *)

Lemma mergeList_survivors ms l m :
  uniqueHashes l →
  Forall2 copiedFrom (mergeList ms m l).1
    (filter (λ d, (mergeList ms m l).2 !! hash d = None) l).
Proof.
  revert m. induction l as [|d rest IH]; intros m Hnd; simpl; [constructor|].
  pose proof (uniqueHashes_tail _ _ Hnd) as Hnd'.
  case_bool_decide as Hd.
  - rewrite filter_cons_False; [by apply IH|].
    destruct (mergeList_is_Some ms rest m (hash d) Hd) as [v Hv].
    by rewrite Hv.
  - apply eq_None_not_Some in Hd.
    pose proof (emit_lookup ms m d rest (hash d)) as He.
    pose proof (emit_fields ms m d rest) as Hf.
    destruct (emit ms m d rest) as [c m']. simpl in He, Hf.
    assert (hash d ∉ hash <$> rest) as Hnot.
    { unfold uniqueHashes in Hnd. rewrite fmap_cons in Hnd.
      by apply NoDup_cons in Hnd as [? _]. }
    assert (m' !! hash d = None) as Hd'.
    { destruct (m' !! hash d) as [v|] eqn:Hv; [|done].
      destruct (He v eq_refl) as [?|[_ ?]]; [congruence|done]. }
    pose proof (mergeList_lookup_None ms rest m' (hash d) Hd' Hnot) as Hfin.
    specialize (IH m' Hnd'). destruct (mergeList ms m' rest) as [out mf].
    simpl in *. rewrite filter_cons_True by done.
    constructor; [|done]. unfold copiedFrom. naive_solver.
Qed.

(** C6, as stated, fails: on an input with a repeated hash the output has a
    node for a record whose hash was entered as a redirect key, so it has
    more nodes than there are records whose hash never was. *)
Lemma survivors_counterexample :
  let out := [ mkCallsite 1 7 1 "a" 1; mkCallsite 2 8 1 "b" 2 ] in
  let M : gmap Z Z := {[ 1 := 2 ]} in
  mergeRun repeatedHash 1 = Done (mkState out M)
  ∧ filter (λ d, M !! hash d = None) repeatedHash = [ mkCallsite 2 8 1 "b" 1 ]
  ∧ ¬ Forall2 copiedFrom out (filter (λ d, M !! hash d = None) repeatedHash).
Proof.
  split_and!; [by vm_compute|by vm_compute|].
  intros Hall%Forall2_length. by vm_compute in Hall.
Qed.

(** C6 (amended): when hashes are unique, the output of [mergeCallsites] has
    exactly one node for each input record whose hash was never entered as a
    redirect key, copied from that record, in the order of the input; a
    redirected record has no node of its own. *)
Theorem mergeCallsites_survivors data minSizeDisplayed :
  uniqueHashes data →
  ∃ st, mergeRun data minSizeDisplayed = Done st
        ∧ mergeCallsites data minSizeDisplayed = Done (mergedData st)
        ∧ Forall2 copiedFrom (mergedData st)
            (filter (λ d, mergedCallsites st !! hash d = None) data).
Proof.
  intros Hnd. eexists. split; [apply mergeRun_mergeList|].
  split; [apply mergeCallsites_mergeList|].
  by apply mergeList_survivors.
Qed.

(** ** The loop state when a record is reached *)

Lemma forLoop_app {S} (body : nat → S → outcome S) l1 l2 st :
  forLoop body (l1 ++ l2) st
  = (st' ← forLoop body l1 st; forLoop body l2 st').
Proof.
  revert st. induction l1 as [|i l1 IH]; intros st; simpl; [done|].
  destruct (body i st) as [st'|e]; simpl; [apply IH|done].
Qed.

Lemma mergeUpTo_S data ms n :
  mergeUpTo data ms (S n)
  = (st ← mergeUpTo data ms n; forBody data ms n st).
Proof.
  unfold mergeUpTo. rewrite seq_S, forLoop_app. simpl.
  destruct (forLoop _ (seq 0 n) _) as [st|e]; simpl; [|done].
  by destruct (forBody data ms n st).
Qed.

Lemma mergeUpTo_emitted data ms n :
  (n ≤ length data)%nat →
  ∃ st, mergeUpTo data ms n = Done st
        ∧ stateOk data st
        ∧ Forall (emittedAt data ms) (mergedData st).
Proof.
  induction n as [|n IH]; intros Hn.
  - exists (mkState [] ∅). split; [done|]. split; [|constructor].
    intros k v Hk. simpl in Hk. by rewrite lookup_empty in Hk.
  - destruct IH as (st & Hst & Hok & Hall); [lia|].
    destruct (lookup_lt_is_Some_2 data n) as [d Hd]; [lia|].
    rewrite mergeUpTo_S, Hst. simpl. destruct st as [acc m].
    rewrite (forBody_emit data ms n d acc m Hd).
    case_bool_decide as Hkey; [by eauto|].
    apply eq_None_not_Some in Hkey.
    pose proof (emit_fields ms m d (drop (S n) data)) as Hf.
    pose proof (emit_lookup ms m d (drop (S n) data)) as Hl.
    destruct (emit ms m d (drop (S n) data)) as [c m']. simpl in Hf, Hl.
    destruct Hf as (Hh & Hp & Hdp & Hnm).
    eexists. split; [done|]. split.
    + intros k v Hk. simpl in *. destruct (Hl k v Hk) as [Hold|[-> Hin]].
      * destruct (Hok k v Hold) as [? ?]. split; [done|].
        rewrite fmap_app. apply elem_of_app. by left.
      * split.
        -- apply list_elem_of_fmap in Hin as (y & -> & Hy).
           apply list_elem_of_fmap_2. by apply (subseteq_drop (S n)).
        -- rewrite fmap_app. apply elem_of_app. right. simpl.
           rewrite Hh. left.
    + simpl. apply Forall_app. split; [done|]. apply Forall_singleton.
      exists n, d, (mkState acc m). simpl.
      split_and!; try done.
      * intros rep Hrep. by destruct (Hok _ _ Hrep).
      * intros Hdangling. rewrite Hp. unfold getCallsitesParentHash.
        destruct (m !! parentHash d) as [rep|] eqn:Hrep; [|done].
        by destruct (Hok _ _ Hrep).
Qed.

(** ** Totality *)

(** C9: on the empty sequence [mergeCallsites] returns the empty sequence,
    whatever the threshold. *)
Theorem mergeCallsites_empty minSizeDisplayed :
  mergeCallsites [] minSizeDisplayed = Done [].
Proof. reflexivity. Qed.

(** C8: [mergeCallsites] returns normally on every input: neither loop runs
    out of fuel and no property of [undefined] is read.  The result is that
    of the scan over the remaining records, which has no element to peek at
    past the end; and when the inner loop stands at [data.length], whatever
    [nextCallsite] holds, it stops and leaves the copy and the redirect map
    as they are. *)
Theorem mergeCallsites_total data minSizeDisplayed :
  mergeCallsites data minSizeDisplayed
  = Done (mergeList minSizeDisplayed ∅ data).1
  ∧ ∀ fuel nextCallsite copiedCallsite m,
      whileLoop (S fuel) data minSizeDisplayed (length data) nextCallsite
        copiedCallsite m
      = Done (copiedCallsite, m).
Proof.
  split; [apply mergeCallsites_mergeList|].
  intros fuel next c m. simpl. by rewrite Nat.ltb_irrefl.
Qed.

(** ** Re-merging *)

Lemma scanList_none ms c m rest :
  (∀ y, y ∈ rest → depth c = depth y → mergeable ms c m y = false) →
  scanList ms c m rest = (c, m).
Proof.
  induction rest as [|x rest IH]; intros Hno; simpl; [done|].
  destruct (depth c =? depth x) eqn:Hd; [|done]. apply Z.eqb_eq in Hd.
  unfold whileBody. rewrite (Hno x) by (left || done).
  apply IH. intros y Hy. apply Hno. by right.
Qed.

Lemma getCallsitesParentHash_empty x :
  getCallsitesParentHash x ∅ = parentHash x.
Proof. unfold getCallsitesParentHash. by rewrite lookup_empty. Qed.

Lemma setParentHash_id d : setParentHash d (parentHash d) = d.
Proof. by destruct d. Qed.

Lemma mergeList_fixed ms l :
  (∀ l1 x l2 y, l = l1 ++ x :: l2 → y ∈ l2 →
     totalSize x ≤ ms → totalSize y ≤ ms →
     depth x = depth y → parentHash x ≠ parentHash y) →
  mergeList ms ∅ l = (l, ∅).
Proof.
  induction l as [|d rest IH]; intros Hsole; simpl; [done|].
  rewrite bool_decide_eq_false_2
    by (rewrite lookup_empty; by intros [? ?]).
  assert (emit ms ∅ d rest = (d, ∅)) as ->.
  { unfold emit. rewrite copyCallsite_id, getCallsitesParentHash_empty,
      setParentHash_id.
    destruct (totalSize d <=? ms) eqn:Hsmall; [|done].
    apply Z.leb_le in Hsmall. apply scanList_none. intros y Hy Hdy.
    apply not_true_is_false. rewrite mergeable_spec.
    rewrite getCallsitesParentHash_empty. intros [Hp Hys].
    by apply (Hsole [] d rest y). }
  rewrite IH; [done|]. intros l1 x l2 y -> Hy.
  by apply (Hsole (d :: l1) x l2 y).
Qed.

Lemma thresholdSatisfying_apart ms data l1 x l2 y :
  thresholdSatisfying ms data → data = l1 ++ x :: l2 → y ∈ l2 →
  totalSize x ≤ ms → depth x = depth y → parentHash x ≠ parentHash y.
Proof.
  intros Hth -> Hy Hsmall Hd Hp.
  apply list_elem_of_lookup in Hy as [j Hj].
  destruct (Hth (length l1) x) as [?|Hsolo]; [|lia|].
  { by rewrite list_lookup_middle. }
  specialize (Hsolo (length l1 + S j)%nat y).
  rewrite lookup_app_r, Nat.add_comm, Nat.add_sub in Hsolo by lia.
  specialize (Hsolo Hj (eq_sym Hd) (eq_sym Hp)). lia.
Qed.

(** C5: on a sequence in which every node is above the threshold or alone
    in its group of depth and parent, [mergeCallsites] with that threshold
    returns the sequence itself. *)
Theorem mergeCallsites_idempotent data minSizeDisplayed :
  thresholdSatisfying minSizeDisplayed data →
  mergeCallsites data minSizeDisplayed = Done data.
Proof.
  intros Hth. rewrite mergeCallsites_mergeList, mergeList_fixed; [done|].
  intros l1 x l2 y Hdata Hy Hx _.
  by apply (thresholdSatisfying_apart minSizeDisplayed data l1 x l2 y).
Qed.

(** ** Depth-sorted input *)

#[local] Instance depthLe_trans : Transitive depthLe.
Proof. unfold depthLe. intros x y z ? ?. lia. Qed.

Lemma depthSorted_strongly l : depthSorted l → StronglySorted depthLe l.
Proof. apply (Sorted_StronglySorted depthLe). Qed.

Lemma depthSorted_head d rest y :
  StronglySorted depthLe (d :: rest) → y ∈ rest → depth d ≤ depth y.
Proof.
  intros Hs Hy. apply StronglySorted_inv in Hs as [_ Hall].
  rewrite Forall_forall in Hall. by apply Hall.
Qed.

Lemma depthSorted_tail d rest :
  StronglySorted depthLe (d :: rest) → StronglySorted depthLe rest.
Proof. by intros [? _]%StronglySorted_inv. Qed.

(** In depth order, a later record of the depth of [d] lies in the run the
    scan started for [d] walks through. *)
Lemma depthSorted_run d rest y :
  StronglySorted depthLe (d :: rest) → y ∈ rest → depth y = depth d →
  ∃ l1 l2, rest = l1 ++ y :: l2
           ∧ Forall (λ x, depth x = depth d) (l1 ++ [y]).
Proof.
  intros Hs Hy Hdy. apply list_elem_of_split in Hy as (l1 & l2 & ->).
  exists l1, l2. split; [done|].
  apply Forall_app. split; [|by apply Forall_singleton].
  apply Forall_forall. intros x Hx.
  assert (depth d ≤ depth x).
  { apply (depthSorted_head d _ x Hs). apply elem_of_app. by left. }
  assert (depth x ≤ depth y).
  { apply depthSorted_tail in Hs.
    apply (StronglySorted_app_1_elem_of depthLe l1 (y :: l2) x y Hs);
      [done|left]. }
  lia.
Qed.

(** Where an output node comes from: a record [q] still to be processed,
    reached with some redirect map [mq] that differs from the present one
    only at hashes of records no deeper than [q]. *)
Lemma mergeList_origin ms l m o :
  StronglySorted depthLe l → noSameDepthParent l →
  o ∈ (mergeList ms m l).1 →
  ∃ q mq, q ∈ l ∧ copiedFrom o q
    ∧ mq !! hash q = None
    ∧ parentHash o = getCallsitesParentHash q mq
    ∧ (ms < totalSize q → totalSize o = totalSize q)
    ∧ (∀ k, is_Some (m !! k) → is_Some (mq !! k))
    ∧ (∀ k, mq !! k ≠ m !! k →
            ∃ y, y ∈ l ∧ hash y = k ∧ depth y ≤ depth q).
Proof.
  revert m. induction l as [|d rest IH]; intros m Hs Hpar Ho; simpl in Ho.
  { by apply elem_of_nil in Ho. }
  pose proof (depthSorted_tail _ _ Hs) as Hs'.
  pose proof (noSameDepthParent_tail _ _ Hpar) as Hpar'.
  case_bool_decide as Hd.
  - destruct (IH m Hs' Hpar' Ho)
      as (q & mq & Hq & Hc & Hmq & Hp & Hsz & Hmono & Hch).
    exists q, mq. split_and!; try done; [by right|].
    intros k Hk. destruct (Hch k Hk) as (y & ? & ? & ?).
    exists y. split_and!; try done. by right.
  - apply eq_None_not_Some in Hd.
    pose proof (emit_fields ms m d rest) as Hf.
    pose proof (emit_large ms m d rest) as Hlarge.
    pose proof (emit_group ms m d rest Hpar) as Heq.
    destruct (emit ms m d rest) as [c m'].
    destruct (mergeList ms m' rest) as [out mf] eqn:Hrec.
    simpl in *. apply elem_of_cons in Ho as [->|Ho].
    + exists d, m. destruct Hf as (? & ? & ? & ?).
      split_and!; try done; [left|].
      intros Hlt. by injection (Hlarge Hlt) as ->.
    + specialize (IH m' Hs' Hpar'). rewrite Hrec in IH.
      destruct (IH Ho) as (q & mq & Hq & Hc & Hmq & Hp & Hsz & Hmono & Hch).
      injection Heq as _ ->.
      exists q, mq. split_and!; try done; [by right| |].
      * intros k Hk. by apply Hmono, redirectAll_is_Some.
      * intros k Hk.
        destruct (decide (mq !! k = redirectAll (hash d) (group ms m d rest) m !! k))
          as [Hsame|Hdiff].
        -- rewrite Hsame, lookup_redirectAll in Hk.
           case_bool_decide as Hin; [|done].
           apply list_elem_of_fmap in Hin as (y & -> & Hy).
           apply group_elem_of in Hy as [Hy Hdy].
           exists y. split_and!; [by right|done|].
           rewrite Hdy. by apply (depthSorted_head d rest q).
        -- destruct (Hch k Hdiff) as (y & ? & ? & ?).
           exists y. split_and!; try done. by right.
Qed.

(** No two output nodes of one group are both at or below the threshold. *)
Lemma mergeList_threshold ms l m :
  StronglySorted depthLe l → noSameDepthParent l →
  ∀ l1 o1 l2 o2, (mergeList ms m l).1 = l1 ++ o1 :: l2 → o2 ∈ l2 →
    depth o1 = depth o2 → parentHash o1 = parentHash o2 →
    totalSize o1 ≤ ms → ms < totalSize o2.
Proof.
  revert m. induction l as [|d rest IH]; intros m Hs Hpar l1 o1 l2 o2 Hout Ho2.
  { simpl in Hout. by destruct l1. }
  pose proof (depthSorted_tail _ _ Hs) as Hs'.
  pose proof (noSameDepthParent_tail _ _ Hpar) as Hpar'.
  simpl in Hout. case_bool_decide as Hd; [by apply (IH m Hs' Hpar' l1 o1 l2)|].
  apply eq_None_not_Some in Hd.
  pose proof (emit_fields ms m d rest) as (Hh & Hp & Hdp & Hnm).
  assert (ms < totalSize d → totalSize (emit ms m d rest).1 = totalSize d)
    as Hlarge by (intros; by rewrite emit_large).
  assert ((emit ms m d rest).2 = redirectAll (hash d) (group ms m d rest) m)
    as Hm' by (by rewrite emit_group).
  destruct (emit ms m d rest) as [c m'].
  pose proof (mergeList_origin ms rest m' o2 Hs' Hpar') as Horigin.
  specialize (IH m' Hs' Hpar').
  destruct (mergeList ms m' rest) as [out mf]. simpl in *.
  destruct l1 as [|o l1]; simpl in Hout; injection Hout as -> ->;
    [|by apply (IH l1 o1 l2)].
  intros Hdep Hpo Hsmall.
  destruct (decide (totalSize d ≤ ms)) as [Hds|Hdl]; [|lia].
  destruct (Horigin Ho2)
    as (q & mq & Hq & (Hqh & Hqd & _) & Hmq & Hqp & Hsz & Hmono & Hch).
  destruct (decide (totalSize q ≤ ms)) as [Hqs|Hql]; [exfalso|lia].
  assert (depth q = depth d) as Hdq by congruence.
  (* [q] was walked over by the scan for [d] and not folded *)
  assert (q ∉ group ms m d rest) as Hnot.
  { intros Hin.
    assert (is_Some (mq !! hash q)) as [? ?]; [|congruence].
    apply Hmono. rewrite Hm'.
    eexists. apply lookup_redirectAll_in. by apply list_elem_of_fmap_2. }
  rewrite elem_of_group in Hnot.
  assert (getCallsitesParentHash d m ≠ getCallsitesParentHash q m) as Hne.
  { intros Heq. apply Hnot. split_and!; try done.
    by apply depthSorted_run. }
  (* and its effective parent has not changed since *)
  apply Hne. rewrite <- Hp, Hpo, Hqp.
  apply getCallsitesParentHash_agree.
  destruct (decide (mq !! parentHash q = m !! parentHash q)) as [|Hdiff];
    [done|exfalso].
  assert (∃ y, y ∈ rest ∧ hash y = parentHash q ∧ depth y ≤ depth q)
    as (y & Hy & Hyh & Hyd).
  { destruct (decide (mq !! parentHash q = m' !! parentHash q))
      as [Hsame|Hdiff'].
    - rewrite Hsame, Hm', lookup_redirectAll in Hdiff.
      case_bool_decide as Hin; [|done].
      apply list_elem_of_fmap in Hin as (y & Hyh & Hy).
      apply group_elem_of in Hy as [Hy Hdy].
      exists y. split_and!; [done|done|lia].
    - by apply Hch. }
  pose proof (depthSorted_head d rest y Hs Hy).
  apply (Hpar q y); [by right|by right|lia|done].
Qed.

Lemma lookup_split_later {A} (l : list A) i j x y :
  l !! i = Some x → l !! j = Some y → (i < j)%nat →
  ∃ l1 l2, l = l1 ++ x :: l2 ∧ y ∈ l2.
Proof.
  intros Hi Hj Hlt. exists (take i l), (drop (S i) l).
  split; [by rewrite take_drop_middle|].
  apply (list_elem_of_lookup_2 _ (j - S i)).
  rewrite lookup_drop. by replace (S i + (j - S i))%nat with j by lia.
Qed.

(** C3, as stated, fails: the node the two small siblings are merged into
    is at the threshold and shares its group with the large sibling. *)
Lemma threshold_counterexample :
  queryOrdered scenario2 = true
  ∧ uniqueHashes scenario2
  ∧ mergeCallsites scenario2 2
    = Done [ mkCallsite 10 0 1 "f" 5; mkCallsite 11 0 1 "g" 2 ]
  ∧ ¬ thresholdSatisfying 2
        [ mkCallsite 10 0 1 "f" 5; mkCallsite 11 0 1 "g" 2 ].
Proof.
  split_and!; [by vm_compute|by apply uniqueHashes_decide|by vm_compute|].
  intros Hth. destruct (Hth 1%nat _ eq_refl) as [Hlt|Hsolo].
  - simpl in Hlt. lia.
  - by specialize (Hsolo 0%nat _ eq_refl eq_refl eq_refl).
Qed.

(** Without the condition on parents the amended property fails as well:
    the first and the last node of this output are at the threshold and in
    one group. *)
Example threshold_needs_parents :
  queryOrdered sameDepthParent = true
  ∧ mergeCallsites sameDepthParent 1
    = Done [ mkCallsite 1 2 1 "a" 1; mkCallsite 2 3 1 "b" 2;
             mkCallsite 3 2 1 "d" 1 ]
  ∧ ¬ soleSmallInGroup 1
        [ mkCallsite 1 2 1 "a" 1; mkCallsite 2 3 1 "b" 2;
          mkCallsite 3 2 1 "d" 1 ].
Proof.
  split_and!; [by vm_compute|by vm_compute|].
  intros Hth. destruct (Hth 0%nat _ eq_refl) as [Hlt|Hsolo].
  - simpl in Hlt. lia.
  - specialize (Hsolo 2%nat _ eq_refl eq_refl eq_refl). simpl in Hsolo. lia.
Qed.

(** C3 (amended): on an input sorted by depth in which no record names a
    record of its own depth as parent, and for a threshold that is not
    negative, every node of the output of [mergeCallsites] is above the
    threshold or is the only node of its group of depth and effective parent
    that is not. *)
Theorem mergeCallsites_threshold data minSizeDisplayed :
  depthSorted data → noSameDepthParent data → 0 ≤ minSizeDisplayed →
  ∃ out, mergeCallsites data minSizeDisplayed = Done out
         ∧ soleSmallInGroup minSizeDisplayed out.
Proof.
  intros Hs%depthSorted_strongly Hpar _.
  eexists. split; [apply mergeCallsites_mergeList|].
  pose proof (mergeList_threshold minSizeDisplayed data ∅ Hs Hpar) as Hth.
  intros i o Hi.
  destruct (decide (minSizeDisplayed < totalSize o)) as [|Hsmall];
    [by left|right].
  intros j o' Hj Hd Hp Hsmall'.
  destruct (Nat.lt_trichotomy i j) as [Hlt|[Heq|Hlt]]; [exfalso|done|exfalso].
  - destruct (lookup_split_later _ i j o o' Hi Hj Hlt) as (l1 & l2 & Hout & Hin).
    pose proof (Hth l1 o l2 o' Hout Hin). lia.
  - destruct (lookup_split_later _ j i o' o Hj Hi Hlt) as (l1 & l2 & Hout & Hin).
    pose proof (Hth l1 o' l2 o Hout Hin). lia.
Qed.

(** ** Grouping *)

Lemma parentsShallower_noSameDepthParent l :
  parentsShallower l → noSameDepthParent l.
Proof. intros Hsh x y Hx Hy Hd Hp. specialize (Hsh x y Hx Hy Hp). lia. Qed.

Lemma parentsShallower_tail d rest :
  parentsShallower (d :: rest) → parentsShallower rest.
Proof. intros H x y Hx Hy. apply H; by right. Qed.

Lemma uniqueHashes_eq l x y :
  uniqueHashes l → x ∈ l → y ∈ l → hash x = hash y → x = y.
Proof.
  intros Hnd (i & Hi)%list_elem_of_lookup (j & Hj)%list_elem_of_lookup Hh.
  assert (i = j) as ->; [|congruence].
  apply (NoDup_lookup _ _ _ (hash x) Hnd); rewrite list_lookup_fmap.
  - by rewrite Hi.
  - by rewrite Hj, Hh.
Qed.

(** Redirect entries are never overwritten. *)
Lemma mergeList_keeps ms l m k v :
  uniqueHashes l → noSameDepthParent l → redirectInv ms m l →
  m !! k = Some v → (mergeList ms m l).2 !! k = Some v.
Proof.
  revert m. induction l as [|d rest IH]; intros m Hnd Hpar Hinv Hk; [done|].
  pose proof (uniqueHashes_tail _ _ Hnd) as Hnd'.
  pose proof (noSameDepthParent_tail _ _ Hpar) as Hpar'.
  simpl. case_bool_decide as Hd.
  - apply IH; try done. by apply redirectInv_tail with d.
  - apply eq_None_not_Some in Hd. rewrite (emit_group ms m d rest Hpar).
    pose proof (IH (redirectAll (hash d) (group ms m d rest) m) Hnd' Hpar'
                  (redirectInv_step ms m d rest Hnd Hpar Hinv Hd)) as IH'.
    destruct (mergeList ms _ rest) as [out mf]. simpl in *. apply IH'.
    rewrite lookup_redirectAll_notin; [done|].
    intros (y & -> & Hy)%list_elem_of_fmap.
    pose proof (group_fresh ms m d rest y Hinv Hd Hy). congruence.
Qed.

Lemma mergeList_final_None ms l m k :
  (mergeList ms m l).2 !! k = None → m !! k = None.
Proof.
  intros Hfin. destruct (m !! k) as [v|] eqn:Hk; [|done].
  destruct (mergeList_is_Some ms l m k (mk_is_Some _ _ Hk)). congruence.
Qed.

(** The effective parent of a record whose parent is not among the records
    still to be processed is final. *)
Lemma mergeList_stable ms l m x :
  uniqueHashes l → noSameDepthParent l → redirectInv ms m l →
  parentHash x ∉ hash <$> l →
  getCallsitesParentHash x (mergeList ms m l).2 = getCallsitesParentHash x m.
Proof.
  intros Hnd Hpar Hinv Hnot. apply getCallsitesParentHash_agree.
  destruct (m !! parentHash x) as [v|] eqn:Hk.
  - by apply mergeList_keeps.
  - by apply mergeList_lookup_None.
Qed.

Section grouping.
Context (ms : Z).

Lemma wellFormed_skip m d rest :
  wellFormed ms m (d :: rest) → wellFormed ms m rest.
Proof.
  intros (Hs & Hnd & Hsh & Hinv). split_and!.
  - by apply depthSorted_tail with d.
  - by apply uniqueHashes_tail with d.
  - by apply parentsShallower_tail with d.
  - by apply redirectInv_tail with d.
Qed.

Lemma wellFormed_step m d rest :
  wellFormed ms m (d :: rest) → m !! hash d = None →
  wellFormed ms (redirectAll (hash d) (group ms m d rest) m) rest.
Proof.
  intros (Hs & Hnd & Hsh & Hinv) Hd. split_and!.
  - by apply depthSorted_tail with d.
  - by apply uniqueHashes_tail with d.
  - by apply parentsShallower_tail with d.
  - apply redirectInv_step; try done.
    by apply parentsShallower_noSameDepthParent.
Qed.

(** Records of the depth of the head have their final effective parent. *)
Lemma head_depth_stable m d rest x :
  wellFormed ms m (d :: rest) → x ∈ d :: rest → depth x = depth d →
  getCallsitesParentHash x (mergeList ms m (d :: rest)).2
  = getCallsitesParentHash x m.
Proof.
  intros (Hs & Hnd & Hsh & Hinv) Hx Hdx.
  apply mergeList_stable; try done.
  { by apply parentsShallower_noSameDepthParent. }
  intros (y & Hp & Hy)%list_elem_of_fmap.
  pose proof (Hsh x y Hx Hy Hp) as Hlt.
  apply elem_of_cons in Hy as [->|Hy]; [lia|].
  pose proof (depthSorted_head d rest y Hs Hy). lia.
Qed.

Lemma mergeList_unfold m d rest :
  wellFormed ms m (d :: rest) → m !! hash d = None →
  (mergeList ms m (d :: rest)).2
  = (mergeList ms (redirectAll (hash d) (group ms m d rest) m) rest).2.
Proof.
  intros (_ & _ & Hsh & _) Hd. simpl.
  rewrite bool_decide_eq_false_2 by (by rewrite Hd; intros [? ?]).
  rewrite emit_group by (by apply parentsShallower_noSameDepthParent).
  by destruct (mergeList ms _ rest).
Qed.

Lemma mergeList_skip m d rest :
  is_Some (m !! hash d) →
  mergeList ms m (d :: rest) = mergeList ms m rest.
Proof. intros Hd. simpl. by rewrite bool_decide_eq_true_2. Qed.

(** A record emitted on its own is never redirected afterwards. *)
Lemma head_final_None m d rest :
  wellFormed ms m (d :: rest) → m !! hash d = None →
  (mergeList ms m (d :: rest)).2 !! hash d = None.
Proof.
  intros Hwf Hd. rewrite mergeList_unfold by done.
  destruct Hwf as (_ & Hnd & _ & _).
  assert (hash d ∉ hash <$> rest) as Hnot.
  { unfold uniqueHashes in Hnd. rewrite fmap_cons in Hnd.
    by apply NoDup_cons in Hnd as [? _]. }
  apply mergeList_lookup_None; [|done].
  rewrite lookup_redirectAll_notin; [done|].
  intros (y & Hh & Hy)%list_elem_of_fmap. apply Hnot. rewrite Hh.
  apply list_elem_of_fmap_2. by apply group_elem_of in Hy as [? _].
Qed.

(** A redirected record was folded into a small record of its depth with
    its effective parent, which is emitted. *)
Lemma mergeList_folded l m x h :
  wellFormed ms m l → x ∈ l → m !! hash x = None →
  (mergeList ms m l).2 !! hash x = Some h →
  ∃ f, f ∈ l ∧ h = hash f
       ∧ (mergeList ms m l).2 !! hash f = None
       ∧ totalSize f ≤ ms ∧ totalSize x ≤ ms
       ∧ depth f = depth x
       ∧ getCallsitesParentHash f (mergeList ms m l).2
         = getCallsitesParentHash x (mergeList ms m l).2.
Proof.
  revert m. induction l as [|d rest IH]; intros m Hwf Hx Hxm Hfin.
  { by apply elem_of_nil in Hx. }
  destruct (m !! hash d) as [v|] eqn:Hd.
  - (* [d] is skipped *)
    rewrite mergeList_skip in * by done.
    apply elem_of_cons in Hx as [->|Hx]; [congruence|].
    destruct (IH m (wellFormed_skip _ _ _ Hwf) Hx Hxm Hfin)
      as (f & Hf & Hrest).
    exists f. split; [by right|done].
  - pose proof (head_final_None m d rest Hwf Hd) as HdNone.
    pose proof (wellFormed_step m d rest Hwf Hd) as Hwf'.
    apply elem_of_cons in Hx as [->|Hx]; [congruence|].
    destruct (redirectAll (hash d) (group ms m d rest) m !! hash x)
      as [w|] eqn:Hx'.
    + (* [x] is folded into [d] in this iteration *)
      assert (x ∈ group ms m d rest) as Hxg.
      { rewrite lookup_redirectAll in Hx'.
        case_bool_decide as Hin; [|congruence].
        apply list_elem_of_fmap in Hin as (y & Hh & Hy).
        pose proof (group_elem_of _ _ _ _ _ Hy) as [Hyr _].
        destruct Hwf' as (_ & Hnd' & _ & _).
        by rewrite (uniqueHashes_eq rest x y Hnd' Hx Hyr Hh). }
      assert (w = hash d) as ->.
      { rewrite lookup_redirectAll_in in Hx'; [congruence|].
        by apply list_elem_of_fmap_2. }
      pose proof Hxg
        as (Hds & (l1 & l2 & _ & Hall) & Hp & Hxs)%elem_of_group.
      rewrite Forall_app, Forall_singleton in Hall.
      destruct Hall as [_ Hdx].
      exists d. split_and!; try done; [left| |].
      * destruct Hwf' as (_ & Hnd' & Hsh' & Hinv').
        rewrite mergeList_unfold in Hfin by done.
        rewrite (mergeList_keeps ms rest _ (hash x) (hash d)) in Hfin;
          try done; [congruence|].
        by apply parentsShallower_noSameDepthParent.
      * rewrite !head_depth_stable; try done; [by right|left].
    + (* [x] is not touched by this iteration *)
      rewrite mergeList_unfold in * by done.
      destruct (IH _ Hwf' Hx Hx' Hfin) as (f & Hf & Hrest).
      exists f. split; [by right|done].
Qed.

(** Two small records of one depth that are both emitted have different
    effective parents. *)
Lemma mergeList_apart l m l1 x l2 y :
  wellFormed ms m l → l = l1 ++ x :: l2 → y ∈ l2 →
  (mergeList ms m l).2 !! hash x = None →
  (mergeList ms m l).2 !! hash y = None →
  totalSize x ≤ ms → totalSize y ≤ ms → depth x = depth y →
  getCallsitesParentHash x (mergeList ms m l).2
  ≠ getCallsitesParentHash y (mergeList ms m l).2.
Proof.
  revert m l1. induction l as [|d rest IH];
    intros m l1 Hwf Hl Hy Hxf Hyf Hxs Hys Hdxy.
  { by destruct l1. }
  destruct (m !! hash d) as [v|] eqn:Hd.
  - rewrite mergeList_skip in * by done.
    destruct l1 as [|d' l1]; simpl in Hl; injection Hl as -> ->.
    + apply mergeList_final_None in Hxf. congruence.
    + by apply (IH m l1 (wellFormed_skip _ _ _ Hwf)).
  - pose proof (wellFormed_step m d rest Hwf Hd) as Hwf'.
    destruct l1 as [|d' l1]; simpl in Hl; injection Hl as -> ->.
    + (* [x] is the head: the scan for it walked over [y] *)
      assert (y ∈ x :: l2) as Hyin by (by right).
      assert (x ∈ x :: l2) as Hxin by left.
      rewrite (head_depth_stable m x l2 x), (head_depth_stable m x l2 y)
        by done.
      intros Heq.
      assert (y ∈ group ms m x l2) as Hyg.
      { apply elem_of_group. split_and!; try done.
        destruct Hwf as (Hs & _). by apply depthSorted_run. }
      rewrite mergeList_unfold in Hyf by done.
      apply mergeList_final_None in Hyf.
      rewrite lookup_redirectAll_in in Hyf; [done|].
      by apply list_elem_of_fmap_2.
    + rewrite mergeList_unfold in * by done.
      by apply (IH _ l1 Hwf').
Qed.
(** The parent an output node is given is the image of its record's parent
    in the final redirect map as well. *)
Lemma mergeList_final_parent l m :
  wellFormed ms m l →
  Forall2 (λ o d, parentHash o
                  = getCallsitesParentHash d (mergeList ms m l).2)
    (mergeList ms m l).1
    (filter (λ d, (mergeList ms m l).2 !! hash d = None) l).
Proof.
  revert m. induction l as [|d rest IH]; intros m Hwf; [constructor|].
  destruct (m !! hash d) as [v|] eqn:Hd.
  - rewrite mergeList_skip by done. rewrite filter_cons_False.
    + apply IH. by apply wellFormed_skip with d.
    + destruct (mergeList_is_Some ms rest m (hash d) (mk_is_Some _ _ Hd))
        as [w Hw]. by rewrite Hw.
  - pose proof (head_final_None m d rest Hwf Hd) as HdN.
    pose proof (head_depth_stable m d rest d Hwf) as Hst.
    pose proof (wellFormed_step m d rest Hwf Hd) as Hwf'.
    rewrite filter_cons_True by done.
    rewrite mergeList_unfold in * by done.
    specialize (IH _ Hwf'). simpl.
    rewrite bool_decide_eq_false_2 by (by rewrite Hd; intros [? ?]).
    pose proof (emit_fields ms m d rest) as (_ & Hp & _).
    destruct Hwf as (_ & _ & Hsh & _).
    pose proof (emit_group ms m d rest
                  (parentsShallower_noSameDepthParent _ Hsh)) as He.
    destruct (emit ms m d rest) as [c m']. injection He as _ ->.
    destruct (mergeList ms _ rest) as [out mf]. simpl in *.
    constructor; [|done]. rewrite Hp, Hst; [done|left|done].
Qed.
End grouping.

Lemma elem_of_apart {A} (l : list A) x y :
  x ∈ l → y ∈ l → x ≠ y →
  (∃ l1 l2, l = l1 ++ x :: l2 ∧ y ∈ l2)
  ∨ (∃ l1 l2, l = l1 ++ y :: l2 ∧ x ∈ l2).
Proof.
  intros (i & Hi)%list_elem_of_lookup (j & Hj)%list_elem_of_lookup Hne.
  destruct (Nat.lt_trichotomy i j) as [Hlt|[->|Hlt]].
  - left. by apply (lookup_split_later l i j).
  - congruence.
  - right. by apply (lookup_split_later l j i).
Qed.

(** Every record ends up in the node of an emitted record [f]: itself, or a
    small record of its depth and effective parent. *)
Lemma representative_spec ms data a :
  wellFormed ms ∅ data → a ∈ data →
  let M := (mergeList ms ∅ data).2 in
  ∃ f, f ∈ data ∧ representative M a = hash f ∧ M !! hash f = None
       ∧ (totalSize a ≤ ms → totalSize f ≤ ms)
       ∧ depth f = depth a
       ∧ getCallsitesParentHash f M = getCallsitesParentHash a M
       ∧ (f = a ∨ totalSize f ≤ ms ∧ totalSize a ≤ ms).
Proof.
  intros Hwf Ha M. unfold representative.
  destruct (M !! hash a) as [h|] eqn:Hfin.
  - destruct (mergeList_folded ms data ∅ a h Hwf Ha (lookup_empty _) Hfin)
      as (f & Hf & -> & HfN & Hfs & Has & Hd & Hp).
    exists f. split_and!; try done. by right.
  - exists a. split_and!; try done. by left.
Qed.

Lemma survivor_emitted out l d :
  Forall2 copiedFrom out l → d ∈ l → hash d ∈ hash <$> out.
Proof.
  intros Hall (i & Hi)%list_elem_of_lookup.
  destruct (Forall2_lookup_r _ _ _ _ _ Hall Hi) as (o & Ho & Hc & _).
  rewrite <- Hc. apply list_elem_of_fmap_2. by apply list_elem_of_lookup_2 with i.
Qed.

(** C2, as stated, fails: the first and the last record have one depth, one
    effective parent and are small, and end up in different nodes. *)
Lemma grouping_counterexample :
  queryOrdered sameDepthParent = true
  ∧ uniqueHashes sameDepthParent
  ∧ mergeRun sameDepthParent 1
    = Done (mkState [ mkCallsite 1 2 1 "a" 1; mkCallsite 2 3 1 "b" 2;
                      mkCallsite 3 2 1 "d" 1 ]
                    {[ 4 := 2 ]})
  ∧ let M : gmap Z Z := {[ 4 := 2 ]} in
    let a := mkCallsite 1 2 1 "a" 1 in
    let b := mkCallsite 3 4 1 "d" 1 in
    sameDepthParent !! 0%nat = Some a ∧ sameDepthParent !! 3%nat = Some b
    ∧ depth a = depth b
    ∧ getCallsitesParentHash a M = getCallsitesParentHash b M
    ∧ totalSize a ≤ 1 ∧ totalSize b ≤ 1
    ∧ representative M a ≠ representative M b.
Proof.
  split_and!; try (by vm_compute). by apply uniqueHashes_decide.
Qed.

(** C2 (amended): on an input sorted by depth, with unique hashes, in which
    every parent that is present is strictly shallower than its child, two
    input records end up in the same output node if and only if they have
    equal depth, equal effective parent in the redirect map, and both are at
    or below the threshold.  The node a record ends up in is a node of the
    output. *)
Theorem mergeCallsites_grouping data minSizeDisplayed :
  depthSorted data → uniqueHashes data → parentsShallower data →
  ∃ st, mergeRun data minSizeDisplayed = Done st
    ∧ (∀ a, a ∈ data →
         representative (mergedCallsites st) a ∈ hash <$> mergedData st)
    ∧ ∀ i j a b, data !! i = Some a → data !! j = Some b → i ≠ j →
        representative (mergedCallsites st) a
        = representative (mergedCallsites st) b
        ↔ depth a = depth b
          ∧ getCallsitesParentHash a (mergedCallsites st)
            = getCallsitesParentHash b (mergedCallsites st)
          ∧ totalSize a ≤ minSizeDisplayed
          ∧ totalSize b ≤ minSizeDisplayed.
Proof.
  intros Hs%depthSorted_strongly Hnd Hsh.
  assert (wellFormed minSizeDisplayed ∅ data) as Hwf.
  { split_and!; try done. apply redirectInv_empty. }
  eexists. split; [apply mergeRun_mergeList|]. simpl.
  split.
  - intros a Ha.
    destruct (representative_spec _ _ a Hwf Ha) as (f & Hf & Hr & HfN & _).
    simpl in Hr. rewrite Hr.
    apply (survivor_emitted _ _ f (mergeList_survivors _ data ∅ Hnd)).
    by apply list_elem_of_filter.
  - intros i j a b Hi Hj Hij.
    assert (a ∈ data) as Ha by (by apply list_elem_of_lookup_2 with i).
    assert (b ∈ data) as Hb by (by apply list_elem_of_lookup_2 with j).
    assert (hash a ≠ hash b) as Hab.
    { intros Heq. apply Hij. apply (NoDup_lookup _ _ _ (hash a) Hnd);
        rewrite list_lookup_fmap; [by rewrite Hi|by rewrite Hj, Heq]. }
    destruct (representative_spec _ _ a Hwf Ha)
      as (fa & Hfa & Hra & HfaN & Hfas & Hfad & Hfap & Hfa').
    destruct (representative_spec _ _ b Hwf Hb)
      as (fb & Hfb & Hrb & HfbN & Hfbs & Hfbd & Hfbp & Hfb').
    simpl in Hra, Hrb, HfaN, HfbN, Hfap, Hfbp. rewrite Hra, Hrb. split.
    + intros Heq.
      assert (fa = fb) as <- by (by apply (uniqueHashes_eq data)).
      split_and!; try congruence.
      * destruct Hfa' as [->|[_ ?]]; [|done].
        destruct Hfb' as [->|[? _]]; [congruence|done].
      * destruct Hfb' as [->|[_ ?]]; [|done].
        destruct Hfa' as [->|[? _]]; [congruence|done].
    + intros (Hd & Hp & Has & Hbs).
      destruct (decide (fa = fb)) as [->|Hne]; [done|exfalso].
      destruct (elem_of_apart data fa fb Hfa Hfb Hne)
        as [(l1 & l2 & Hl & Hin)|(l1 & l2 & Hl & Hin)].
      * apply (mergeList_apart minSizeDisplayed data ∅ l1 fa l2 fb);
          auto; congruence.
      * apply (mergeList_apart minSizeDisplayed data ∅ l1 fb l2 fa);
          auto; congruence.
Qed.

(** ** The effective parent *)








(** Depth order is needed as well: here every parent is strictly shallower,
    but the child comes first. *)
Example effective_parent_needs_order :
  parentsShallower childFirst
  ∧ mergeRun childFirst 1
    = Done (mkState [ mkCallsite 7 5 2 "a" 1; mkCallsite 0 6 1 "b" 2 ]
                    {[ 5 := 0 ]}).
Proof. split; [by apply (bool_decide_unpack _)|by vm_compute]. Qed.


(** Scenario 5 of the specification: the two small children at depth 2 have
    different parents, which are merged at depth 1; the children are grouped
    under the surviving parent. *)
Example scenario5 :
  mergeCallsites
    [ mkCallsite 10 0 0 "root" 100;
      mkCallsite 21 10 1 "p" 1; mkCallsite 22 10 1 "q" 1;
      mkCallsite 31 21 2 "x" 1; mkCallsite 32 22 2 "y" 1 ] 1
  = Done [ mkCallsite 10 0 0 "root" 100;
           mkCallsite 21 10 1 "p" 2;
           mkCallsite 31 21 2 "x" 2 ].
Proof. by vm_compute. Qed.

(** ** The theorems on concrete inputs *)

(** Scenario 1 of the specification: three small siblings become one node. *)
Example scenario1_merged :
  mergeCallsites scenario1 2 = Done [ mkCallsite 11 0 1 "f" 3 ].
Proof. by vm_compute. Qed.

(** Scenario 4 of the specification: a single small node is returned as it
    is. *)
Example scenario4 :
  mergeCallsites [ mkCallsite 10 0 1 "f" 1 ] 2
  = Done [ mkCallsite 10 0 1 "f" 1 ].
Proof. by vm_compute. Qed.


Lemma mergeCallsites_conservation_witness :
  uniqueHashes smallTree ∧ noSameDepthParent smallTree ∧ exactSums smallTree
  ∧ ∃ out, mergeCallsites smallTree 1 = Done out
           ∧ sumSizes out = sumSizes smallTree.
Proof.
  assert (uniqueHashes smallTree) as H1 by (by apply (bool_decide_unpack _)).
  assert (noSameDepthParent smallTree) as H2
    by (by apply (bool_decide_unpack _)).
  assert (exactSums smallTree) as H3 by (by apply (bool_decide_unpack _)).
  split_and!; [done|done|done|].
  exact (mergeCallsites_conservation smallTree 1 H1 H2 H3).
Defined.

Lemma mergeCallsites_grouping_witness :
  depthSorted smallTree ∧ uniqueHashes smallTree ∧ parentsShallower smallTree
  ∧ ∃ st, mergeRun smallTree 1 = Done st
    ∧ (∀ a, a ∈ smallTree →
         representative (mergedCallsites st) a ∈ hash <$> mergedData st)
    ∧ ∀ i j a b, smallTree !! i = Some a → smallTree !! j = Some b → i ≠ j →
        representative (mergedCallsites st) a
        = representative (mergedCallsites st) b
        ↔ depth a = depth b
          ∧ getCallsitesParentHash a (mergedCallsites st)
            = getCallsitesParentHash b (mergedCallsites st)
          ∧ totalSize a ≤ 1 ∧ totalSize b ≤ 1.
Proof.
  assert (depthSorted smallTree) as H1 by (by apply (bool_decide_unpack _)).
  assert (uniqueHashes smallTree) as H2 by (by apply (bool_decide_unpack _)).
  assert (parentsShallower smallTree) as H3
    by (by apply (bool_decide_unpack _)).
  split_and!; [done|done|done|].
  exact (mergeCallsites_grouping smallTree 1 H1 H2 H3).
Defined.

Lemma mergeCallsites_threshold_witness :
  depthSorted scenario2 ∧ noSameDepthParent scenario2 ∧ 0 ≤ 2
  ∧ ∃ out, mergeCallsites scenario2 2 = Done out ∧ soleSmallInGroup 2 out.
Proof.
  assert (depthSorted scenario2) as H1 by (by apply (bool_decide_unpack _)).
  assert (noSameDepthParent scenario2) as H2
    by (by apply (bool_decide_unpack _)).
  assert (0 ≤ 2) as H3 by lia.
  split_and!; [done|done|done|].
  exact (mergeCallsites_threshold scenario2 2 H1 H2 H3).
Defined.

Lemma mergeCallsites_survivors_witness :
  uniqueHashes scenario2
  ∧ ∃ st, mergeRun scenario2 2 = Done st
        ∧ mergeCallsites scenario2 2 = Done (mergedData st)
        ∧ Forall2 copiedFrom (mergedData st)
            (filter (λ d, mergedCallsites st !! hash d = None) scenario2).
Proof.
  assert (uniqueHashes scenario2) as H1 by (by apply (bool_decide_unpack _)).
  split; [done|].
  exact (mergeCallsites_survivors scenario2 2 H1).
Defined.

Lemma mergedPair_thresholdSatisfying :
  thresholdSatisfying 2 mergedPair.
Proof.
  intros i x Hi. destruct i as [|[|i]]; simplify_eq/=.
  - left. lia.
  - right. intros j y Hj Hd Hp.
    destruct j as [|[|j]]; simplify_eq/=; done.
Defined.

Lemma mergeCallsites_idempotent_witness :
  thresholdSatisfying 2 mergedPair
  ∧ mergeCallsites mergedPair 2 = Done mergedPair.
Proof.
  split; [apply mergedPair_thresholdSatisfying|].
  exact (mergeCallsites_idempotent mergedPair 2
           mergedPair_thresholdSatisfying).
Defined.

(** ** The store model computes the value model and writes nothing old *)

Lemma bind_Done {A B} (x : heapM A) (f : A → heapM B) σ a σ' :
  x σ = Done (a, σ') → (x ≫= f) σ = f a σ'.
Proof. unfold mbind, heapM_bind. by intros ->. Qed.

Lemma bind_Fail {A B} (x : heapM A) (f : A → heapM B) σ e :
  x σ = Fail e → (x ≫= f) σ = Fail e.
Proof. unfold mbind, heapM_bind. by intros ->. Qed.

Lemma readField_eq {A} (f : CallsiteInfo → A) σ l c :
  σ !! l = Some (Callsite c) → readField l f σ = Done (f c, σ).
Proof. unfold readField. by intros ->. Qed.

Lemma writeField_eq upd σ l c :
  σ !! l = Some (Callsite c) →
  writeField l upd σ = Done ((), <[l := Callsite (upd c)]> σ).
Proof. unfold writeField. by intros ->. Qed.

Lemma arrayLength_eq σ a elems :
  σ !! a = Some (Array elems) → arrayLength a σ = Done (length elems, σ).
Proof. unfold arrayLength. by intros ->. Qed.

Lemma arrayGet_eq σ a elems i :
  σ !! a = Some (Array elems) → arrayGet a i σ = Done (elems !! i, σ).
Proof. unfold arrayGet. by intros ->. Qed.

Lemma arrayPush_eq σ a elems l :
  σ !! a = Some (Array elems) →
  arrayPush a l σ = Done ((), <[a := Array (elems ++ [l])]> σ).
Proof. unfold arrayPush. by intros ->. Qed.

Lemma lookup_top (σ : list object) o : (σ ++ [o]) !! length σ = Some o.
Proof. by rewrite list_lookup_middle. Qed.

Lemma insert_top (σ : list object) o o' :
  <[length σ := o']> (σ ++ [o]) = σ ++ [o'].
Proof.
  rewrite insert_app_r_alt by lia. by rewrite Nat.sub_diag.
Qed.

Lemma holds_lookup σ locs recs i l :
  holds σ locs recs → locs !! i = Some l →
  ∃ d, recs !! i = Some d ∧ σ !! l = Some (Callsite d).
Proof. intros Hh Hl. apply (Forall2_lookup_l _ _ _ _ _ Hh Hl). Qed.

Lemma holds_lookup_None σ locs recs i :
  holds σ locs recs → locs !! i = None → recs !! i = None.
Proof.
  intros Hh Hl. apply lookup_ge_None. apply lookup_ge_None in Hl.
  by rewrite <- (Forall2_length _ _ _ Hh).
Qed.

Lemma holds_app σ ext locs recs :
  holds σ locs recs → holds (σ ++ ext) locs recs.
Proof.
  intros Hh. eapply Forall2_impl; [done|].
  intros l r Hl. by apply lookup_app_l_Some.
Qed.

Lemma getCallsitesParentHashRef_eq σ l c m :
  σ !! l = Some (Callsite c) →
  getCallsitesParentHashRef l m σ = Done (getCallsitesParentHash c m, σ).
Proof.
  intros Hl. unfold getCallsitesParentHashRef.
  by erewrite bind_Done by (by apply readField_eq).
Qed.

(** One step of a computation in the store monad. *)
Ltac hstep :=
  erewrite bind_Done;
  [|first [ apply readField_eq; first [apply lookup_top|eassumption]
          | apply getCallsitesParentHashRef_eq;
            first [apply lookup_top|eassumption]
          | apply arrayLength_eq; eassumption
          | apply arrayGet_eq; eassumption
          | apply writeField_eq; apply lookup_top
          | reflexivity ]].

Section store.
Context (data : nat) (locs : list nat) (recs : list CallsiteInfo).
Context (minSizeDisplayed : Z).

(** The inner loop, with the copy on top of the store [σ]. *)
Lemma whileLoopRef_sim fuel σ j c m :
  σ !! data = Some (Array locs) → holds σ locs recs →
  whileLoopRef fuel data minSizeDisplayed j (locs !! j) (length σ) m
    (σ ++ [Callsite c])
  = match whileLoop fuel recs minSizeDisplayed j (recs !! j) c m with
    | Done (c', m') => Done (m', σ ++ [Callsite c'])
    | Fail e => Fail e
    end.
Proof.
  intros Hdata Hholds. revert j c m.
  induction fuel as [|fuel IH]; intros j c m; [done|].
  pose proof (lookup_app_l_Some _ [Callsite c] _ _ Hdata) as Hdata'.
  pose proof (Forall2_length _ _ _ Hholds) as Hlen.
  simpl. hstep. rewrite Hlen.
  destruct (j <? length recs)%nat eqn:Hj; simpl; [|done].
  destruct (locs !! j) as [l|] eqn:Hl.
  2:{ by rewrite (holds_lookup_None _ _ _ _ Hholds Hl). }
  destruct (holds_lookup _ _ _ _ _ Hholds Hl) as (next & -> & Hnext).
  pose proof (lookup_app_l_Some _ [Callsite c] _ _ Hnext) as Hnext'.
  do 2 hstep. destruct (depth c =? depth next); simpl; [|done].
  do 3 hstep.
  unfold whileBody, mergeable.
  destruct ((parentHash c =? _) && (totalSize next <=? minSizeDisplayed));
    simpl.
  - erewrite bind_Done.
    2:{ hstep. unfold writeTotalSize. hstep. rewrite insert_top.
        erewrite bind_Done
          by (apply readField_eq, lookup_app_l_Some, Hnext).
        hstep. reflexivity. }
    erewrite bind_Done
      by (apply arrayGet_eq, lookup_app_l_Some, Hdata).
    apply (IH (S j) (addTotalSize c (totalSize next))).
  - do 2 hstep. apply IH.
Qed.

Lemma storeAfter_length σ0 acc :
  length (storeAfter σ0 acc) = (S (length σ0) + length acc)%nat.
Proof.
  unfold storeAfter. rewrite length_app. simpl. rewrite length_fmap. lia.
Qed.

Lemma storeAfter_old σ0 acc l o :
  σ0 !! l = Some o → storeAfter σ0 acc !! l = Some o.
Proof. apply lookup_app_l_Some. Qed.

Lemma storeAfter_array σ0 acc :
  storeAfter σ0 acc !! length σ0
  = Some (Array (seq (S (length σ0)) (length acc))).
Proof. unfold storeAfter. by rewrite list_lookup_middle. Qed.

Lemma storeAfter_push σ0 acc c :
  <[length σ0 := Array (seq (S (length σ0)) (length acc)
                        ++ [length (storeAfter σ0 acc)])]>
    (storeAfter σ0 acc ++ [Callsite c])
  = storeAfter σ0 (acc ++ [c]).
Proof.
  rewrite storeAfter_length. unfold storeAfter.
  rewrite <- app_assoc. rewrite insert_app_r_alt by lia.
  rewrite Nat.sub_diag. simpl.
  rewrite length_app, fmap_app. simpl.
  by rewrite Nat.add_1_r, seq_S.
Qed.

Lemma copyCallsiteRef_eq σ l d :
  σ !! l = Some (Callsite d) →
  copyCallsiteRef l σ = Done (length σ, σ ++ [Callsite (copyCallsite d)]).
Proof. intros Hl. unfold copyCallsiteRef. by do 5 hstep. Qed.

Lemma forBodyRef_sim σ0 i acc m :
  σ0 !! data = Some (Array locs) → holds σ0 locs recs →
  forBodyRef data minSizeDisplayed (length σ0) i m (storeAfter σ0 acc)
  = match forBody recs minSizeDisplayed i (mkState acc m) with
    | Done st => Done (mergedCallsites st, storeAfter σ0 (mergedData st))
    | Fail e => Fail e
    end.
Proof.
  intros Hdata0 Hholds0.
  pose proof (storeAfter_old σ0 acc _ _ Hdata0) as Hdata.
  pose proof (holds_app σ0 _ locs recs Hholds0 : holds (storeAfter σ0 acc) _ _)
    as Hholds.
  pose proof (Forall2_length _ _ _ Hholds) as Hlen.
  unfold forBodyRef, forBody. hstep.
  destruct (locs !! i) as [l|] eqn:Hl.
  2:{ by rewrite (holds_lookup_None _ _ _ _ Hholds Hl). }
  destruct (holds_lookup _ _ _ _ _ Hholds Hl) as (d & -> & Hd).
  hstep. simpl. case_bool_decide; [done|].
  erewrite bind_Done by (by apply copyCallsiteRef_eq).
  hstep. unfold writeParentHash. hstep. rewrite insert_top. hstep.
  erewrite bind_Done by (apply arrayLength_eq, lookup_app_l_Some, Hdata).
  rewrite Hlen. simpl.
  set (c := setParentHash (copyCallsite d)
              (getCallsitesParentHash (copyCallsite d) m)).
  match goal with
  | |- (?blk ≫= _) _ = _ =>
      assert (blk (storeAfter σ0 acc ++ [Callsite c])
              = match (if (totalSize d <=? minSizeDisplayed)
                          && (i + 1 <? length recs)%nat
                       then whileLoop (length recs) recs minSizeDisplayed
                              (i + 1) (recs !! (i + 1)%nat) c m
                       else Done (c, m)) with
                | Done (c', m') =>
                    Done (m', storeAfter σ0 acc ++ [Callsite c'])
                | Fail e => Fail e
                end) as Hblk
  end.
  { destruct ((totalSize d <=? minSizeDisplayed)
              && (i + 1 <? length recs)%nat); [|done].
    erewrite bind_Done by (apply arrayGet_eq, lookup_app_l_Some, Hdata).
    rewrite <- Hlen. by apply whileLoopRef_sim. }
  destruct (if (totalSize d <=? minSizeDisplayed)
               && (i + 1 <? length recs)%nat
            then whileLoop (length recs) recs minSizeDisplayed
                   (i + 1) (recs !! (i + 1)%nat) c m
            else Done (c, m))
    as [[c' m']|e].
  - erewrite bind_Done by exact Hblk.
    erewrite bind_Done.
    2:{ apply arrayPush_eq, lookup_app_l_Some, storeAfter_array. }
    simpl. by rewrite storeAfter_push.
  - by erewrite bind_Fail by exact Hblk.
Qed.

Lemma forLoopRef_sim σ0 fuel i acc m :
  σ0 !! data = Some (Array locs) → holds σ0 locs recs →
  (length recs - i < fuel)%nat →
  forLoopRef fuel data minSizeDisplayed (length σ0) i m (storeAfter σ0 acc)
  = match forLoop (forBody recs minSizeDisplayed)
            (seq i (length recs - i)) (mkState acc m) with
    | Done st => Done (mergedCallsites st, storeAfter σ0 (mergedData st))
    | Fail e => Fail e
    end.
Proof.
  intros Hdata0 Hholds0. revert i acc m.
  induction fuel as [|fuel IH]; intros i acc m Hfuel; [lia|].
  pose proof (storeAfter_old σ0 acc _ _ Hdata0) as Hdata.
  pose proof (Forall2_length _ _ _ Hholds0) as Hlen.
  simpl. hstep. rewrite Hlen.
  destruct (i <? length recs)%nat eqn:Hi; simpl.
  - apply Nat.ltb_lt in Hi.
    replace (length recs - i)%nat with (S (length recs - S i)) by lia.
    simpl.
    pose proof (forBodyRef_sim σ0 i acc m Hdata0 Hholds0) as Hbody.
    destruct (forBody recs minSizeDisplayed i (mkState acc m)) as [[acc' m']|e].
    + erewrite bind_Done by exact Hbody. simpl. apply IH. lia.
    + by erewrite bind_Fail by exact Hbody.
  - apply Nat.ltb_ge in Hi.
    by replace (length recs - i)%nat with 0%nat by lia.
Qed.

Lemma mergeCallsitesRef_sim σ0 :
  σ0 !! data = Some (Array locs) → holds σ0 locs recs →
  mergeCallsitesRef data minSizeDisplayed σ0
  = match mergeCallsites recs minSizeDisplayed with
    | Done out => Done (length σ0, storeAfter σ0 out)
    | Fail e => Fail e
    end.
Proof.
  intros Hdata0 Hholds0. unfold mergeCallsitesRef. hstep.
  change (σ0 ++ [Array []]) with (storeAfter σ0 []).
  pose proof (storeAfter_old σ0 [] _ _ Hdata0) as Hdata.
  pose proof (Forall2_length _ _ _ Hholds0) as Hlen.
  hstep. rewrite Hlen.
  pose proof (forLoopRef_sim σ0 (S (length recs)) 0 [] ∅ Hdata0 Hholds0) as Hloop.
  rewrite Nat.sub_0_r in Hloop. specialize (Hloop ltac:(lia)).
  unfold mergeCallsites, mergeRun, mergeUpTo.
  destruct (forLoop _ _ _) as [st|e]; simpl.
  - by erewrite bind_Done by exact Hloop.
  - by erewrite bind_Fail by exact Hloop.
Qed.
End store.

Lemma storeAfter_holds σ0 out :
  holds (storeAfter σ0 out) (seq (S (length σ0)) (length out)) out.
Proof.
  apply Forall2_same_length_lookup_2; [by rewrite length_seq|].
  intros i l o Hl Ho. apply lookup_seq in Hl as [-> Hi].
  unfold storeAfter. rewrite lookup_app_r by lia.
  replace (S (length σ0) + i - length σ0)%nat with (S i) by lia.
  simpl. by rewrite list_lookup_fmap, Ho.
Qed.

(** C7: run on a store in which [data] is an array of callsite records,
    [mergeCallsites] returns normally; every object that existed before the
    call, the input array and the input records among them, is as it was;
    the result is a new array of new, distinct objects; and each output node
    has the hash, the depth and the name of an input record (only
    [totalSize] and [parentHash] are ever assigned).  The nodes are those
    the value model computes from the records. *)
Theorem mergeCallsitesRef_pure σ data locs recs minSizeDisplayed :
  σ !! data = Some (Array locs) → holds σ locs recs →
  ∃ σ' out outLocs outs,
    mergeCallsitesRef data minSizeDisplayed σ = Done (out, σ')
    ∧ (∀ l o, σ !! l = Some o → σ' !! l = Some o)
    ∧ σ !! out = None ∧ σ' !! out = Some (Array outLocs)
    ∧ Forall (λ l, σ !! l = None) outLocs ∧ NoDup outLocs
    ∧ holds σ' outLocs outs
    ∧ mergeCallsites recs minSizeDisplayed = Done outs
    ∧ Forall (λ o, ∃ d, d ∈ recs ∧ copiedFrom o d) outs.
Proof.
  intros Hdata Hholds.
  destruct (mergeUpTo_emitted recs minSizeDisplayed (length recs))
    as (st & Hst & _ & Hem); [done|].
  set (outs := mergedData st).
  assert (mergeCallsites recs minSizeDisplayed = Done outs) as Hv.
  { unfold mergeCallsites, mergeRun. by rewrite Hst. }
  exists (storeAfter σ outs), (length σ),
         (seq (S (length σ)) (length outs)), outs.
  split_and!.
  - by rewrite (mergeCallsitesRef_sim data locs recs), Hv.
  - intros l o. apply storeAfter_old.
  - by apply lookup_ge_None.
  - apply storeAfter_array.
  - apply Forall_forall. intros l Hl. apply elem_of_seq in Hl.
    apply lookup_ge_None. lia.
  - apply NoDup_seq.
  - apply storeAfter_holds.
  - done.
  - eapply Forall_impl; [done|]. intros o (i & d & sti & Hi & _ & _ & Hc & _).
    exists d. split; [|done]. by apply list_elem_of_lookup_2 with i.
Qed.

Lemma mergeCallsitesRef_pure_witness :
  let recs := [ mkCallsite 11 0 1 "f" 1; mkCallsite 12 0 1 "g" 1;
                mkCallsite 11 0 1 "f" 1 ] in
  storeExample !! 2%nat = Some (Array [0; 1; 0]%nat)
  ∧ holds storeExample [0; 1; 0]%nat recs
  ∧ ∃ σ' out outLocs outs,
      mergeCallsitesRef 2 2 storeExample = Done (out, σ')
      ∧ (∀ l o, storeExample !! l = Some o → σ' !! l = Some o)
      ∧ storeExample !! out = None ∧ σ' !! out = Some (Array outLocs)
      ∧ Forall (λ l, storeExample !! l = None) outLocs ∧ NoDup outLocs
      ∧ holds σ' outLocs outs
      ∧ mergeCallsites recs 2 = Done outs
      ∧ Forall (λ o, ∃ d, d ∈ recs ∧ copiedFrom o d) outs.
Proof.
  intros recs.
  assert (storeExample !! 2%nat = Some (Array [0; 1; 0]%nat)) as H1
    by reflexivity.
  assert (holds storeExample [0; 1; 0]%nat recs) as H2
    by (repeat constructor).
  split_and!; [done|done|].
  exact (mergeCallsitesRef_pure storeExample 2 [0; 1; 0]%nat recs 2 H1 H2).
Defined.

(** C10 fails on the code: a request is issued for the first selection; the
    application then makes a new selection object current; the request
    completes, the check reads the captured object, which still has the
    fields copied from it, and the result is published although the active
    selection is the second one. *)
Lemma stale_result_published getMinSizeDisplayed :
  let c0 := mkController 0 100 1 0 None None in
  let g0 := mkGlobals [firstSelection] (Some 0%nat) in
  let g1 := mkGlobals [firstSelection; secondSelection] (Some 1%nat) in
  let p := mkPending 0 1 7 "HEAP_PROFILE_FLAMEGRAPH" 10 in
  let c1 := mkController 0 100 1 0 (Some 10) (Some 1) in
  run g0 c0 = (c1, [Publish (generateEmptyData c0); GetFlamegraphData p])
  ∧ activeSelection g1 = Some secondSelection
  ∧ id secondSelection ≠ selectedId p
  ∧ onFlamegraphData getMinSizeDisplayed g1 c1 p (Some [])
    = Some (mkData 0 100 1 0 []).
Proof. split_and!; try reflexivity. by vm_compute. Qed.

(** The check compares the captured object with copies of its own fields:
    whenever that object is as [run] found it, a completed request is
    published, whatever the active selection is. *)
Lemma check_passes_on_unchanged_object getMinSizeDisplayed g0 c0 c1 d0 p
    g1 c fd :
  run g0 c0 = (c1, [Publish d0; GetFlamegraphData p]) →
  selections g1 !! selection p = selections g0 !! selection p →
  ∃ merged,
    mergeCallsites fd (getMinSizeDisplayed fd) = Done merged
    ∧ onFlamegraphData getMinSizeDisplayed g1 c p (Some fd)
      = Some (mkData (start c) (end_ c) (resolution c) (length_ c) merged).
Proof.
  unfold run, onFlamegraphData. intros Hrun Hsame.
  destruct (currentHeapProfileFlamegraph g0) as [l|]; [|done].
  destruct (selections g0 !! l) as [sel|] eqn:Hsel; [|done].
  destruct (negb _); [done|]. case_bool_decide; [done|].
  injection Hrun as _ _ <-. simpl in *. rewrite Hsame, Hsel.
  rewrite String.eqb_refl, !Z.eqb_refl. simpl.
  rewrite mergeCallsites_mergeList. by eexists.
Qed.

(** The check does its work only when the captured object is still the
    current one and the application has changed it in place. *)
Lemma check_on_current_object getMinSizeDisplayed g c p fd d :
  currentHeapProfileFlamegraph g = Some (selection p) →
  onFlamegraphData getMinSizeDisplayed g c p (Some fd) = Some d →
  ∃ sel, activeSelection g = Some sel
         ∧ kind sel = selectedKind p
         ∧ id sel = selectedId p ∧ ts sel = selectedTs p.
Proof.
  unfold onFlamegraphData, activeSelection. intros -> Hpub. simpl.
  destruct (selections g !! selection p) as [sel|]; [|done].
  exists sel. split; [done|].
  destruct (String.eqb _ _) eqn:Hk; [|done].
  destruct (id sel =? _) eqn:Hi; [|done].
  destruct (ts sel =? _) eqn:Ht; [|done].
  apply String.eqb_eq in Hk. apply Z.eqb_eq in Hi, Ht. done.
Qed.

(** ** Further properties of the merge *)

Lemma whileBody_totalSize_le ms c m x :
  0 ≤ totalSize x → totalSize c ≤ totalSize (whileBody ms c m x).1.
Proof.
  intros Hx. unfold whileBody. destruct (mergeable ms c m x); simpl; lia.
Qed.

Lemma scanList_totalSize_le ms c m rest :
  sizesNonNegative rest → totalSize c ≤ totalSize (scanList ms c m rest).1.
Proof.
  revert c m. induction rest as [|x rest IH]; intros c m Hnn; simpl; [done|].
  apply Forall_cons in Hnn as [Hx Hnn].
  destruct (depth c =? depth x); [|done].
  pose proof (whileBody_totalSize_le ms c m x Hx) as Hb.
  destruct (whileBody ms c m x) as [c1 m1]. simpl in Hb.
  specialize (IH c1 m1 Hnn). lia.
Qed.

Lemma emit_totalSize_le ms m d rest :
  sizesNonNegative rest → totalSize d ≤ totalSize (emit ms m d rest).1.
Proof.
  intros Hnn. unfold emit. rewrite copyCallsite_id. simpl.
  destruct (totalSize d <=? ms); [|done].
  apply (scanList_totalSize_le ms (setParentHash d _) m rest Hnn).
Qed.

(** The output is copied, node by node, from a subsequence of the input. *)
Lemma mergeList_emitted ms l m :
  ∃ sub, sub `sublist_of` l
    ∧ Forall2 (emittedFrom ms) (mergeList ms m l).1 sub
    ∧ (sizesNonNegative l →
       Forall2 (λ o d, totalSize d ≤ totalSize o) (mergeList ms m l).1 sub).
Proof.
  revert m. induction l as [|d rest IH]; intros m; simpl.
  { exists []. split_and!; by constructor. }
  case_bool_decide as Hd.
  - destruct (IH m) as (sub & Hsub & Hall & Hnn).
    exists sub. split_and!; [by constructor|done|].
    intros [_ ?]%Forall_cons. by apply Hnn.
  - pose proof (emit_fields ms m d rest) as (Hh & _ & Hdp & Hnm).
    pose proof (emit_large ms m d rest) as Hlarge.
    pose proof (emit_totalSize_le ms m d rest) as Hle.
    destruct (emit ms m d rest) as [c m'].
    destruct (IH m') as (sub & Hsub & Hall & Hnn).
    destruct (mergeList ms m' rest) as [out mf]. simpl in *.
    exists (d :: sub). split_and!.
    + by constructor.
    + constructor; [|done]. split; [done|].
      intros Hlt. by injection (Hlarge Hlt) as ->.
    + intros [_ Hrest]%Forall_cons. constructor; [by apply Hle|by apply Hnn].
Qed.

(** X1: on every input, the output of [mergeCallsites] is copied, node by
    node and in order, from a subsequence of the input (same hash, depth and
    name), so it is never longer than the input. *)
Theorem mergeCallsites_subsequence data minSizeDisplayed :
  ∃ out sub, mergeCallsites data minSizeDisplayed = Done out
    ∧ sub `sublist_of` data
    ∧ Forall2 copiedFrom out sub
    ∧ (length out ≤ length data)%nat.
Proof.
  destruct (mergeList_emitted minSizeDisplayed data ∅)
    as (sub & Hsub & Hall & _).
  eexists _, sub. split_and!; [apply mergeCallsites_mergeList|done| |].
  - eapply Forall2_impl; [done|]. by intros o d [? _].
  - rewrite (Forall2_length _ _ _ Hall). by apply sublist_length.
Qed.

(** X2: a node copied from a record above the threshold has that record's
    size, on every input; and when no input size is negative, no node is
    smaller than the record it was copied from. *)
Theorem mergeCallsites_sizes data minSizeDisplayed :
  ∃ out sub, mergeCallsites data minSizeDisplayed = Done out
    ∧ sub `sublist_of` data
    ∧ Forall2 (λ o d, copiedFrom o d
                      ∧ (minSizeDisplayed < totalSize d →
                         totalSize o = totalSize d)) out sub
    ∧ (sizesNonNegative data →
       Forall2 (λ o d, totalSize d ≤ totalSize o) out sub).
Proof.
  destruct (mergeList_emitted minSizeDisplayed data ∅)
    as (sub & Hsub & Hall & Hle).
  eexists _, sub. split_and!; [apply mergeCallsites_mergeList|done|done|done].
Qed.

Lemma mergeCallsites_sizes_witness :
  sizesNonNegative scenario2
  ∧ ∃ out sub, mergeCallsites scenario2 2 = Done out
      ∧ sub `sublist_of` scenario2
      ∧ Forall2 (λ o d, copiedFrom o d
                        ∧ (2 < totalSize d → totalSize o = totalSize d))
          out sub
      ∧ Forall2 (λ o d, totalSize d ≤ totalSize o) out sub.
Proof.
  assert (sizesNonNegative scenario2) as H1
    by (by apply (bool_decide_unpack _)).
  split; [done|].
  destruct (mergeCallsites_sizes scenario2 2)
    as (out & sub & Hout & Hsub & Hall & Hle).
  exists out, sub. split_and!; [done|done|done|]. exact (Hle H1).
Defined.

(** X7: on an input sorted by depth in which no record names a record of its
    own depth as parent, merging is idempotent: [mergeCallsites] applied to
    its own output, with the same threshold, returns that output. *)
Theorem mergeCallsites_twice data minSizeDisplayed :
  depthSorted data → noSameDepthParent data →
  ∃ out, mergeCallsites data minSizeDisplayed = Done out
         ∧ mergeCallsites out minSizeDisplayed = Done out.
Proof.
  intros Hs%depthSorted_strongly Hpar.
  eexists. split; [apply mergeCallsites_mergeList|].
  rewrite mergeCallsites_mergeList, mergeList_fixed; [done|].
  intros l1 x l2 y Hout Hy Hxs Hys Hd Hp.
  pose proof (mergeList_threshold minSizeDisplayed data ∅ Hs Hpar
                l1 x l2 y Hout Hy Hd Hp Hxs). lia.
Qed.

Lemma mergeCallsites_twice_witness :
  depthSorted smallTree ∧ noSameDepthParent smallTree
  ∧ ∃ out, mergeCallsites smallTree 1 = Done out
           ∧ mergeCallsites out 1 = Done out.
Proof.
  assert (depthSorted smallTree) as H1 by (by apply (bool_decide_unpack _)).
  assert (noSameDepthParent smallTree) as H2
    by (by apply (bool_decide_unpack _)).
  split_and!; [done|done|]. exact (mergeCallsites_twice smallTree 1 H1 H2).
Defined.

Lemma mergeRun_final data ms st :
  mergeRun data ms = Done st →
  mergedData st = (mergeList ms ∅ data).1
  ∧ mergedCallsites st = (mergeList ms ∅ data).2.
Proof. rewrite mergeRun_mergeList. by intros [= <-]. Qed.

(** X5: the redirect map the merge ends with sends hashes of input records
    to hashes of output nodes, and, when hashes are unique, never to a hash
    that is itself redirected: one lookup resolves a parent. *)
Theorem redirect_resolves_in_one_step data minSizeDisplayed :
  uniqueHashes data →
  ∃ st, mergeRun data minSizeDisplayed = Done st
    ∧ ∀ k v, mergedCallsites st !! k = Some v →
        k ∈ hash <$> data
        ∧ v ∈ hash <$> mergedData st
        ∧ mergedCallsites st !! v = None.
Proof.
  intros Hnd.
  destruct (mergeUpTo_emitted data minSizeDisplayed (length data))
    as (st & Hst & Hok & _); [done|].
  exists st. split; [done|]. intros k v Hk.
  destruct (Hok k v Hk) as [Hkin Hvin]. split_and!; [done|done|].
  destruct (mergeRun_final data minSizeDisplayed st Hst) as [Hout HM].
  pose proof (mergeList_survivors minSizeDisplayed data ∅ Hnd) as Hsurv.
  rewrite <- Hout, <- HM in Hsurv.
  apply list_elem_of_fmap in Hvin as (o & -> & Ho).
  apply list_elem_of_lookup in Ho as (i & Hi).
  destruct (Forall2_lookup_l _ _ _ _ _ Hsurv Hi) as (d & Hd & Hc & _).
  apply list_elem_of_lookup_2 in Hd.
  apply list_elem_of_filter in Hd as [Hd _]. by rewrite Hc.
Qed.

Lemma redirect_resolves_in_one_step_witness :
  uniqueHashes smallTree
  ∧ ∃ st, mergeRun smallTree 1 = Done st
    ∧ ∀ k v, mergedCallsites st !! k = Some v →
        k ∈ hash <$> smallTree
        ∧ v ∈ hash <$> mergedData st
        ∧ mergedCallsites st !! v = None.
Proof.
  assert (uniqueHashes smallTree) as H1 by (by apply (bool_decide_unpack _)).
  split; [done|]. exact (redirect_resolves_in_one_step smallTree 1 H1).
Defined.

Lemma Forall2_conj {A B} (P Q : A → B → Prop) l k :
  Forall2 P l k → Forall2 Q l k → Forall2 (λ x y, P x y ∧ Q x y) l k.
Proof.
  intros HP. induction HP as [|x y l k Hxy HP IH]; intros HQ;
    [constructor|].
  apply Forall2_cons in HQ as [? ?]. constructor; [done|by apply IH].
Qed.

(** On a valid input every output node is copied from a record that is
    never redirected, and has that record's parent as the final redirect map
    resolves it. *)
Lemma mergeList_nodes ms data :
  wellFormed ms ∅ data →
  Forall2 (λ o d, copiedFrom o d
                  ∧ parentHash o
                    = getCallsitesParentHash d (mergeList ms ∅ data).2)
    (mergeList ms ∅ data).1
    (filter (λ d, (mergeList ms ∅ data).2 !! hash d = None) data).
Proof.
  intros Hwf. apply Forall2_conj.
  - apply mergeList_survivors. by destruct Hwf as (_ & ? & _).
  - by apply mergeList_final_parent.
Qed.

Lemma validInput_wellFormed ms data :
  validInput data → wellFormed ms ∅ data.
Proof.
  intros (Hs & Hnd & Hsh). split_and!; try done.
  - by apply depthSorted_strongly.
  - apply redirectInv_empty.
Qed.

(** On a valid input, a parent an output node is given that is the hash of
    an input record [d'] is the hash of a strictly shallower one that is
    never redirected. *)
Lemma mergeList_parent_record ms data d d' :
  wellFormed ms ∅ data → d ∈ data → d' ∈ data →
  getCallsitesParentHash d (mergeList ms ∅ data).2 = hash d' →
  depth d' < depth d ∧ (mergeList ms ∅ data).2 !! hash d' = None.
Proof.
  intros Hwf Hd Hd' Hp. pose proof Hwf as (_ & Hnd & Hsh & _).
  unfold getCallsitesParentHash in Hp.
  destruct (_ !! parentHash d) as [h|] eqn:Hk; [subst h|].
  - assert (parentHash d ∈ hash <$> data) as Hin.
    { destruct (decide (parentHash d ∈ hash <$> data)); [done|].
      rewrite mergeList_lookup_None in Hk; [done|apply lookup_empty|done]. }
    apply list_elem_of_fmap in Hin as (y & Hy & Hyin).
    rewrite Hy in Hk.
    destruct (mergeList_folded ms data ∅ y (hash d') Hwf Hyin
                (lookup_empty _) Hk)
      as (f & Hf & Hh & HfN & _ & _ & Hfd & _).
    rewrite (uniqueHashes_eq data d' f Hnd Hd' Hf Hh).
    split; [|done]. rewrite Hfd. by apply (Hsh d y).
  - split; [by apply (Hsh d d')|].
    destruct (_ !! hash d') as [h|] eqn:Hk'; [exfalso|done].
    destruct (mergeList_folded ms data ∅ d' h Hwf Hd' (lookup_empty _) Hk')
      as (f & Hf & -> & HfN & _ & _ & Hfd & Hfp).
    (* the parent [d'] was folded into [f]: the image of [parentHash d]
       would be [hash f], not [hash d'] *)
    rewrite <- Hp in Hk'. congruence.
Qed.

Lemma StronglySorted_sublist {A} (R : relation A) (l1 l2 : list A) :
  l1 `sublist_of` l2 → StronglySorted R l2 → StronglySorted R l1.
Proof.
  induction 1 as [|x l1 l2 Hsub IH|x l1 l2 Hsub IH]; intros Hs.
  - constructor.
  - apply StronglySorted_inv in Hs as [Hs Hall]. constructor; [by apply IH|].
    rewrite Forall_forall in *. intros y Hy. apply Hall.
    by apply (elem_of_sublist l1 l2).
  - apply StronglySorted_inv in Hs as [Hs _]. by apply IH.
Qed.

Lemma depthSorted_copied out sub :
  Forall2 copiedFrom out sub →
  StronglySorted depthLe sub → StronglySorted depthLe out.
Proof.
  induction 1 as [|o d out sub (_ & Hd & _) Hall IH]; intros Hs;
    [constructor|].
  apply StronglySorted_inv in Hs as [Hs Hle]. constructor; [by apply IH|].
  apply Forall_forall. intros o' (i & Hi)%list_elem_of_lookup.
  destruct (Forall2_lookup_l _ _ _ _ _ Hall Hi) as (d' & Hd' & _ & Hdd' & _).
  rewrite Forall_forall in Hle. unfold depthLe in *. rewrite Hd, Hdd'.
  apply Hle. by apply list_elem_of_lookup_2 with i.
Qed.

Lemma hashes_copied out sub :
  Forall2 copiedFrom out sub → hash <$> out = hash <$> sub.
Proof.
  induction 1 as [|o d out sub (Hh & _) Hall IH]; [done|].
  rewrite !fmap_cons. by rewrite Hh, IH.
Qed.

Lemma Forall2_elem_of_l {A B} (P : A → B → Prop) l k x :
  Forall2 P l k → x ∈ l → ∃ y, y ∈ k ∧ P x y.
Proof.
  intros Hall (i & Hi)%list_elem_of_lookup.
  destruct (Forall2_lookup_l _ _ _ _ _ Hall Hi) as (y & Hy & HP).
  exists y. split; [|done]. by apply list_elem_of_lookup_2 with i.
Qed.

(** X3: the output of [mergeCallsites] on a valid input (sorted by depth,
    unique hashes, parents strictly shallower) is a valid input again. *)
Theorem mergeCallsites_valid_output data minSizeDisplayed :
  validInput data →
  ∃ out, mergeCallsites data minSizeDisplayed = Done out ∧ validInput out.
Proof.
  intros Hvalid.
  pose proof (validInput_wellFormed minSizeDisplayed data Hvalid) as Hwf.
  destruct Hvalid as (Hs%depthSorted_strongly & Hnd & Hsh).
  eexists. split; [apply mergeCallsites_mergeList|].
  destruct (mergeList_emitted minSizeDisplayed data ∅)
    as (sub & Hsub & Hall & _).
  assert (Forall2 copiedFrom (mergeList minSizeDisplayed ∅ data).1 sub)
    as Hcopied.
  { eapply Forall2_impl; [done|]. by intros o d [? _]. }
  pose proof (mergeList_nodes minSizeDisplayed data Hwf) as Hnodes.
  split_and!.
  - apply StronglySorted_Sorted, (depthSorted_copied _ sub Hcopied).
    by apply (StronglySorted_sublist _ sub data).
  - unfold uniqueHashes. rewrite (hashes_copied _ sub Hcopied).
    apply (sublist_NoDup _ (hash <$> data)); [done|].
    by apply fmap_sublist.
  - intros o o' Ho Ho' Hp.
    destruct (Forall2_elem_of_l _ _ _ o Hnodes Ho)
      as (d & [_ Hd]%list_elem_of_filter & (_ & Hdd & _) & Hpo).
    destruct (Forall2_elem_of_l _ _ _ o' Hnodes Ho')
      as (d' & [_ Hd']%list_elem_of_filter & (Hh' & Hdd' & _) & _).
    rewrite Hdd, Hdd'.
    apply (mergeList_parent_record minSizeDisplayed data d d' Hwf Hd Hd').
    congruence.
Qed.

Lemma mergeCallsites_valid_output_witness :
  validInput smallTree
  ∧ ∃ out, mergeCallsites smallTree 1 = Done out ∧ validInput out.
Proof.
  assert (validInput smallTree) as H1 by (by apply (bool_decide_unpack _)).
  split; [done|]. exact (mergeCallsites_valid_output smallTree 1 H1).
Defined.

(** X6: on a valid input, the parent every output node is given is the hash
    of an output node, unless it is the hash of no input record at all (a
    root, or a parent that was never there): no node is left under a parent
    that was merged away. *)
Theorem mergeCallsites_parents_present data minSizeDisplayed :
  validInput data →
  ∃ out, mergeCallsites data minSizeDisplayed = Done out
    ∧ Forall (λ o, parentHash o ∈ hash <$> out
                   ∨ parentHash o ∉ hash <$> data) out.
Proof.
  intros Hvalid.
  pose proof (validInput_wellFormed minSizeDisplayed data Hvalid) as Hwf.
  eexists. split; [apply mergeCallsites_mergeList|].
  pose proof (mergeList_nodes minSizeDisplayed data Hwf) as Hnodes.
  apply Forall_forall. intros o Ho.
  destruct (decide (parentHash o ∈ hash <$> data)) as [Hin|]; [left|by right].
  destruct (Forall2_elem_of_l _ _ _ o Hnodes Ho)
    as (d & [_ Hd]%list_elem_of_filter & _ & Hpo).
  apply list_elem_of_fmap in Hin as (d' & Hp & Hd').
  destruct (mergeList_parent_record minSizeDisplayed data d d' Hwf Hd Hd')
    as [_ HN]; [congruence|].
  rewrite Hp.
  apply (survivor_emitted _
           (filter (λ d, (mergeList minSizeDisplayed ∅ data).2 !! hash d
                         = None) data)).
  - eapply Forall2_impl; [done|]. by intros ? ? [? _].
  - by apply list_elem_of_filter.
Qed.

Lemma mergeCallsites_parents_present_witness :
  validInput smallTree
  ∧ ∃ out, mergeCallsites smallTree 1 = Done out
      ∧ Forall (λ o, parentHash o ∈ hash <$> out
                     ∨ parentHash o ∉ hash <$> smallTree) out.
Proof.
  assert (validInput smallTree) as H1 by (by apply (bool_decide_unpack _)).
  split; [done|]. exact (mergeCallsites_parents_present smallTree 1 H1).
Defined.

(** ** The size of each node *)

Lemma filter_iff_in {A} (P Q : A → Prop) `{∀ x, Decision (P x)}
    `{∀ x, Decision (Q x)} (l : list A) :
  (∀ x, x ∈ l → P x ↔ Q x) → filter P l = filter Q l.
Proof.
  induction l as [|x l IH]; intros Hiff; [done|].
  assert (filter P l = filter Q l) as Hl.
  { apply IH. intros y Hy. apply Hiff. by right. }
  destruct (decide (P x)) as [HP|HP].
  - rewrite !filter_cons_True; [by rewrite Hl|by apply Hiff; [left|]|done].
  - rewrite !filter_cons_False; [done| |done].
    intros HQ. apply HP. by apply Hiff; [left|].
Qed.

Lemma sumSizes_filter_sublist (P : CallsiteInfo → Prop)
    `{∀ x, Decision (P x)} G rest :
  G `sublist_of` rest → uniqueHashes rest →
  (∀ x, x ∈ rest → P x ↔ x ∈ G) →
  sumSizes (filter P rest) = sumSizes G.
Proof.
  induction 1 as [|x G rest Hsub IH|x G rest Hsub IH]; intros Hnd Hiff.
  - done.
  - pose proof (uniqueHashes_tail _ _ Hnd) as Hnd'.
    rewrite filter_cons_True by (apply Hiff; left). simpl. f_equal.
    apply IH; [done|]. intros y Hy. rewrite Hiff by (by right).
    rewrite elem_of_cons. split; [|by right].
    intros [->|?]; [|done].
    by destruct (uniqueHashes_head x rest x Hnd Hy).
  - pose proof (uniqueHashes_tail _ _ Hnd) as Hnd'.
    rewrite filter_cons_False.
    + apply IH; [done|]. intros y Hy. apply Hiff. by right.
    + rewrite Hiff by left. intros Hx.
      apply (uniqueHashes_head x rest x Hnd); [|done].
      by apply (elem_of_sublist G rest).
Qed.

(** A redirect target entered while [l] is processed is the hash of a record
    of [l]. *)
Lemma mergeList_lookup_value ms l m k v :
  (mergeList ms m l).2 !! k = Some v →
  m !! k = Some v ∨ v ∈ hash <$> l.
Proof.
  revert m. induction l as [|d rest IH]; intros m; simpl; [by left|].
  case_bool_decide.
  - intros [?|?]%IH; [by left|]. right. rewrite ?fmap_cons. by right.
  - pose proof (emit_lookup ms m d rest k v) as He.
    destruct (emit ms m d rest) as [c m']. specialize (IH m').
    destruct (mergeList ms m' rest) as [out mf]. simpl in *.
    intros [Hm'|?]%IH; [|right; rewrite ?fmap_cons; by right].
    destruct (He Hm') as [?|[-> _]]; [by left|].
    right. rewrite ?fmap_cons. left.
Qed.

Lemma mergeList_out_hashes ms l m o :
  o ∈ (mergeList ms m l).1 → hash o ∈ hash <$> l.
Proof.
  intros Ho. destruct (mergeList_emitted ms l m) as (sub & Hsub & Hall & _).
  destruct (Forall2_elem_of_l _ _ _ o Hall Ho) as (d & Hd & (Hh & _) & _).
  rewrite Hh. apply list_elem_of_fmap_2. by apply (elem_of_sublist sub l).
Qed.

Lemma mergeList_node_sizes ms l m :
  uniqueHashes l → noSameDepthParent l → redirectInv ms m l →
  Forall (λ o, totalSize o
               = sumSizes (filter (λ x, m !! hash x = None
                                        ∧ representative (mergeList ms m l).2 x
                                          = hash o) l))
    (mergeList ms m l).1.
Proof.
  revert m. induction l as [|d rest IH]; intros m Hnd Hpar Hinv;
    [constructor|].
  pose proof (uniqueHashes_tail _ _ Hnd) as Hnd'.
  pose proof (noSameDepthParent_tail _ _ Hpar) as Hpar'.
  destruct (m !! hash d) as [w|] eqn:Hd.
  - rewrite mergeList_skip by done.
    eapply Forall_impl; [apply IH; try done; by apply redirectInv_tail with d|].
    intros o ->. simpl. rewrite filter_cons_False; [done|].
    rewrite Hd. by intros [? _].
  - pose proof (redirectInv_step ms m d rest Hnd Hpar Hinv Hd) as Hinv'.
    set (G := group ms m d rest) in *.
    set (m' := redirectAll (hash d) G m) in *.
    assert (mergeList ms m (d :: rest)
            = (addTotalSize (setParentHash d (getCallsitesParentHash d m))
                 (sumSizes G) :: (mergeList ms m' rest).1,
               (mergeList ms m' rest).2)) as ->.
    { simpl. rewrite bool_decide_eq_false_2 by (by rewrite Hd; intros [? ?]).
      rewrite (emit_group ms m d rest Hpar). fold G m'.
      by destruct (mergeList ms m' rest). }
    simpl. set (M := (mergeList ms m' rest).2).
    assert (hash d ∉ hash <$> rest) as Hdrest.
    { unfold uniqueHashes in Hnd. rewrite fmap_cons in Hnd.
      by apply NoDup_cons in Hnd as [? _]. }
    assert (m' !! hash d = None) as Hd'.
    { unfold m'. rewrite lookup_redirectAll_notin; [done|].
      intros (y & Hh & Hy)%list_elem_of_fmap. apply Hdrest. rewrite Hh.
      apply list_elem_of_fmap_2. by apply group_elem_of in Hy as [? _]. }
    assert (M !! hash d = None) as HdM
      by (by apply mergeList_lookup_None).
    assert (∀ x, x ∈ G → M !! hash x = Some (hash d)) as HG.
    { intros x Hx. apply mergeList_keeps; try done.
      by apply lookup_redirectAll_in, list_elem_of_fmap_2. }
    assert (∀ x, x ∈ rest → m !! hash x = None →
                 is_Some (m' !! hash x) → x ∈ G) as Hnew.
    { intros x Hx Hxm [v Hv]. unfold m' in Hv.
      rewrite lookup_redirectAll in Hv. case_bool_decide as Hin; [|congruence].
      apply list_elem_of_fmap in Hin as (y & Hh & Hy).
      pose proof (group_elem_of _ _ _ _ _ Hy) as [Hyr _].
      by rewrite (uniqueHashes_eq rest x y Hnd' Hx Hyr Hh). }
    constructor.
    + (* the node emitted for [d] *)
      rewrite filter_cons_True
        by (split; [done|]; unfold representative; by rewrite HdM).
      simpl. f_equal.
      symmetry. apply sumSizes_filter_sublist;
        [apply group_sublist|done|].
      intros x Hx. unfold representative. split.
      * intros [Hxm Hrep].
        destruct (M !! hash x) as [v|] eqn:HxM.
        -- subst v. apply Hnew; [done|done|].
           destruct (m' !! hash x) as [v|] eqn:Hxm'; [done|exfalso].
           destruct (mergeList_lookup_value ms rest m' _ _ HxM);
             [congruence|done].
        -- exfalso. by apply (uniqueHashes_head d rest x Hnd).
      * intros HxG. split; [by apply (group_fresh ms m d rest)|].
        by rewrite (HG x HxG).
    + (* the nodes emitted afterwards *)
      pose proof (IH m' Hnd' Hpar' Hinv') as IH'. fold M in IH'.
      rewrite Forall_forall in IH'. apply Forall_forall. intros o Ho.
      rewrite (IH' o Ho).
      pose proof (mergeList_out_hashes ms rest m' o Ho) as Hoh.
      rewrite filter_cons_False.
      2:{ unfold representative. rewrite HdM. intros [_ Heq].
          apply Hdrest. by rewrite Heq. }
      f_equal. apply filter_iff_in. intros x Hx. split.
      * intros [Hxm' Hrep]. split; [|done].
        by apply redirectAll_None in Hxm' as [? _].
      * intros [Hxm Hrep]. split; [|done].
        destruct (m' !! hash x) as [v|] eqn:Hxm'; [exfalso|done].
        assert (x ∈ G) as HxG by (by apply Hnew).
        unfold representative in Hrep. rewrite (HG x HxG) in Hrep.
        apply Hdrest. by rewrite Hrep.
Qed.

(** X8: when hashes are unique, no record names a record of its own depth
    as parent and the sums of sizes are exact, the size of every output node
    is the sum of the sizes of the input records that end up in it (the
    record it was copied from and the records redirected to it). *)
Theorem mergeCallsites_node_sizes data minSizeDisplayed :
  uniqueHashes data → noSameDepthParent data → exactSums data →
  ∃ st, mergeRun data minSizeDisplayed = Done st
    ∧ Forall (λ o, totalSize o
                   = sumSizes (filter (λ x, representative
                                              (mergedCallsites st) x
                                            = hash o) data))
        (mergedData st).
Proof.
  intros Hnd Hpar _. eexists. split; [apply mergeRun_mergeList|]. simpl.
  eapply Forall_impl;
    [apply (mergeList_node_sizes minSizeDisplayed data ∅ Hnd Hpar),
       redirectInv_empty|].
  intros o ->. simpl. f_equal. apply list_filter_iff.
  intros x. rewrite lookup_empty. naive_solver.
Qed.

Lemma mergeCallsites_node_sizes_witness :
  uniqueHashes smallTree ∧ noSameDepthParent smallTree ∧ exactSums smallTree
  ∧ ∃ st, mergeRun smallTree 1 = Done st
    ∧ Forall (λ o, totalSize o
                   = sumSizes (filter (λ x, representative
                                              (mergedCallsites st) x
                                            = hash o) smallTree))
        (mergedData st).
Proof.
  assert (uniqueHashes smallTree) as H1 by (by apply (bool_decide_unpack _)).
  assert (noSameDepthParent smallTree) as H2
    by (by apply (bool_decide_unpack _)).
  assert (exactSums smallTree) as H3 by (by apply (bool_decide_unpack _)).
  split_and!; [done|done|done|].
  exact (mergeCallsites_node_sizes smallTree 1 H1 H2 H3).
Defined.

(** ** Allocation *)

Lemma countObjects_app p σ1 σ2 :
  countObjects p (σ1 ++ σ2) = (countObjects p σ1 + countObjects p σ2)%nat.
Proof. induction σ1 as [|o σ1 IH]; simpl; [done|]. rewrite IH. lia. Qed.

Lemma countObjects_callsites (acc : list CallsiteInfo) :
  countObjects isCallsite (Callsite <$> acc) = length acc
  ∧ countObjects isArray (Callsite <$> acc) = 0%nat.
Proof.
  induction acc as [|c acc [IH1 IH2]]; [done|].
  rewrite fmap_cons. cbn [countObjects isCallsite isArray].
  rewrite IH1, IH2. done.
Qed.

(** X4: of arrays and callsite objects, [mergeCallsites] allocates the
    output array and one callsite object for each output node, and no other:
    a record that is skipped because it was redirected is never copied. *)
Theorem mergeCallsitesRef_allocation σ data locs recs minSizeDisplayed :
  σ !! data = Some (Array locs) → holds σ locs recs →
  ∃ σ' out outs,
    mergeCallsitesRef data minSizeDisplayed σ = Done (out, σ')
    ∧ mergeCallsites recs minSizeDisplayed = Done outs
    ∧ countObjects isCallsite σ'
      = (countObjects isCallsite σ + length outs)%nat
    ∧ countObjects isArray σ' = (countObjects isArray σ + 1)%nat
    ∧ (length outs ≤ length recs)%nat.
Proof.
  intros Hdata Hholds.
  pose proof (mergeCallsitesRef_sim data locs recs minSizeDisplayed σ
                Hdata Hholds) as Hsim.
  rewrite mergeCallsites_mergeList in Hsim.
  eexists _, _, _. split; [exact Hsim|].
  split; [apply mergeCallsites_mergeList|].
  unfold storeAfter. rewrite !countObjects_app. simpl.
  destruct (countObjects_callsites (mergeList minSizeDisplayed ∅ recs).1)
    as [-> ->].
  split_and!; [lia|lia|].
  destruct (mergeList_emitted minSizeDisplayed recs ∅)
    as (sub & Hsub & Hall & _).
  rewrite (Forall2_length _ _ _ Hall). by apply sublist_length.
Qed.

Lemma mergeCallsitesRef_allocation_witness :
  let recs := [ mkCallsite 11 0 1 "f" 1; mkCallsite 12 0 1 "g" 1;
                mkCallsite 11 0 1 "f" 1 ] in
  storeExample !! 2%nat = Some (Array [0; 1; 0]%nat)
  ∧ holds storeExample [0; 1; 0]%nat recs
  ∧ ∃ σ' out outs,
      mergeCallsitesRef 2 2 storeExample = Done (out, σ')
      ∧ mergeCallsites recs 2 = Done outs
      ∧ countObjects isCallsite σ'
        = (countObjects isCallsite storeExample + length outs)%nat
      ∧ countObjects isArray σ'
        = (countObjects isArray storeExample + 1)%nat
      ∧ (length outs ≤ length recs)%nat.
Proof.
  intros recs.
  assert (storeExample !! 2%nat = Some (Array [0; 1; 0]%nat)) as H1
    by reflexivity.
  assert (holds storeExample [0; 1; 0]%nat recs) as H2
    by (repeat constructor).
  split_and!; [done|done|].
  exact (mergeCallsitesRef_allocation storeExample 2 [0; 1; 0]%nat recs 2
           H1 H2).
Defined.

(** ** The rest of the controller *)

(** The guard of [run] reads the selection and the two fields [run] itself
    assigns: with these as a call of [run] left them, [run] returns at the
    guard. *)
Lemma run_guard g c c' :
  lastSelectedId c' = lastSelectedId (run g c).1 →
  lastSelectedTs c' = lastSelectedTs (run g c).1 →
  run g c' = (c', []).
Proof.
  unfold run. destruct (currentHeapProfileFlamegraph g) as [l|]; [|done].
  destruct (selections g !! l) as [sel|] eqn:Hsel; [|done].
  destruct (negb (String.eqb (kind sel) "HEAP_PROFILE_FLAMEGRAPH")) eqn:Hk;
    simpl; [done|].
  destruct (decide (lastSelectedId c = Some (id sel)
                    ∧ lastSelectedTs c = Some (ts sel))) as [Hlast|Hlast].
  - rewrite (bool_decide_eq_true_2 _ Hlast). simpl. intros Hi Ht.
    rewrite bool_decide_eq_true_2; [done|]. destruct Hlast. split; congruence.
  - rewrite (bool_decide_eq_false_2 _ Hlast). simpl. intros Hi Ht.
    by rewrite bool_decide_eq_true_2.
Qed.

(** X9: [run] is guarded by the last selection it served.  Provided the
    [run] of the base class leaves the two fields of the guard alone, a
    second call of [run] on the same globals does what [super.run()] does
    and nothing more: its own code changes no field, publishes nothing and
    starts no request. *)
Theorem run_again_is_silent {E}
    (superRun : Globals → Controller → Controller * list E) g c :
  (∀ g' c', lastSelectedId (superRun g' c').1 = lastSelectedId c'
            ∧ lastSelectedTs (superRun g' c').1 = lastSelectedTs c') →
  let c1 := (runMethod superRun g c).1 in
  runMethod superRun g c1 = ((superRun g c1).1, ((superRun g c1).2, [])).
Proof.
  intros Hsuper c1.
  assert (c1 = (run g (superRun g c).1).1) as Hc1.
  { unfold c1, runMethod. destruct (superRun g c) as [c0 e0]. simpl.
    by destruct (run g c0). }
  destruct (Hsuper g c1) as [Hi Ht].
  unfold runMethod. destruct (superRun g c1) as [c2 e2]. simpl in *.
  rewrite (run_guard g (superRun g c).1 c2); [done| |]; congruence.
Qed.

(** A base class whose [run] changes the bounds through [onBoundsChange] and
    publishes the data it returns. *)
Lemma run_again_is_silent_witness :
  let superRun := λ (_ : Globals) c,
    ((onBoundsChange c 5 50 2).1, [(onBoundsChange c 5 50 2).2]) in
  let g := mkGlobals [firstSelection] (Some 0%nat) in
  let c := mkController 0 100 1 0 None None in
  (∀ g' c', lastSelectedId (superRun g' c').1 = lastSelectedId c'
            ∧ lastSelectedTs (superRun g' c').1 = lastSelectedTs c')
  ∧ (runMethod superRun g c).2.2 ≠ []
  ∧ let c1 := (runMethod superRun g c).1 in
    runMethod superRun g c1 = ((superRun g c1).1, ((superRun g c1).2, [])).
Proof.
  intros superRun g c.
  assert (∀ g' c', lastSelectedId (superRun g' c').1 = lastSelectedId c'
                   ∧ lastSelectedTs (superRun g' c').1 = lastSelectedTs c')
    as H1 by (intros g' c'; split; reflexivity).
  split_and!; [done|by vm_compute|].
  exact (run_again_is_silent superRun g c H1).
Defined.

(** X12: a change of bounds keeps the guard of [run]: after
    [onBoundsChange], [run] starts a request exactly when it would have
    started one before. *)
Theorem onBoundsChange_keeps_guard g c start' end' resolution' :
  (run g (onBoundsChange c start' end' resolution').1).2 = []
  ↔ (run g c).2 = [].
Proof.
  unfold run, onBoundsChange. simpl.
  destruct (currentHeapProfileFlamegraph g) as [l|]; [|done].
  destruct (selections g !! l) as [sel|]; [|done].
  destruct (negb _); [done|].
  destruct (bool_decide _); simpl; [done|]. by split.
Qed.








Example cacheKey_example : cacheKey 7 (-10) = "7;-10".
Proof. reflexivity. Qed.


